(** * bungee: procedural terrain, tessellation and shading state

    A shallow embedding of [src/bungee/main.cpp].

    Numeric model.  The C++ types [float] and [double] (and the GLSL
    [float]) are read as real numbers: [+ - * /], [sqrt], [cosf], [sinf],
    [expf], ... are the exact operations of [R] and rounding is not
    represented.  [M_PI] is [PI].

    Integer model.  [int] values are integers of [Z].  A signed operation
    on which the control flow or an index depends and whose exact result
    leaves the 32-bit range is undefined behaviour and is rendered as [None];
    [unsigned int] arithmetic is reduced modulo [2^32].  Reading a C array or
    a [std::vector] outside its bounds is rendered as [None] too, so [Some r]
    always means "the run is defined and gives r".  A [float] division by
    zero does not trap; it is the value Rocq gives to [x / 0]. *)

From Stdlib Require Import ZArith List Bool Reals Lra Lia.
Import ListNotations.

(** ** Machine integers and the undefined-behaviour monad *)

Definition INT_MIN : Z := -2147483648.
Definition INT_MAX : Z := 2147483647.
Definition UINT_MOD : Z := 4294967296.

(** Conversion to [unsigned int]. *)
Definition to_unsigned (z : Z) : Z := z mod UINT_MOD.

(** The result of a signed [int] operation: defined only inside the range. *)
Definition int_checked (z : Z) : option Z :=
  if ((INT_MIN <=? z) && (z <=? INT_MAX))%Z then Some z else None.

Definition int_add (a b : Z) : option Z := int_checked (a + b).
Definition int_mul (a b : Z) : option Z := int_checked (a * b).

(** A signed [int] result as two's-complement hardware leaves it; used where
    the result only feeds a pure test ([E]). *)
Definition int_wrap (z : Z) : Z := ((z - INT_MIN) mod UINT_MOD + INT_MIN)%Z.

Definition bind {A B : Type} (c : option A) (k : A -> option B) : option B :=
  match c with
  | Some a => k a
  | None => None
  end.

Notation "x <- c ;; k" := (bind c (fun x => k))
  (at level 61, c at next level, right associativity).
Notation "' p <- c ;; k" := (bind c (fun x => match x with p => k end))
  (at level 61, p pattern, c at next level, right associativity).

(** [for_loop fuel i body s]: [fuel] iterations of a counting loop whose
    counter starts at [i] and is incremented after each round; [s] is the
    value of the variables the body assigns. *)
Fixpoint for_loop {S : Type} (fuel : nat) (i : Z)
    (body : Z -> S -> option S) (s : S) : option S :=
  match fuel with
  | O => Some s
  | Datatypes.S fuel' => s' <- body i s ;; for_loop fuel' (i + 1) body s'
  end.

(** [for (c = 0; c <= n; c++)] *)
Definition for_le {S : Type} (n : Z) (body : Z -> S -> option S) (s : S)
    : option S :=
  for_loop (Z.to_nat (n + 1)) 0 body s.

(** [for (c = 0; c < n; c++)] *)
Definition for_lt {S : Type} (n : Z) (body : Z -> S -> option S) (s : S)
    : option S :=
  for_loop (Z.to_nat n) 0 body s.

(** [for (c = a; c < n; c++)] *)
Definition for_from_lt {S : Type} (a n : Z) (body : Z -> S -> option S)
    (s : S) : option S :=
  for_loop (Z.to_nat (n - a)) a body s.

(** ** Vectors of [framework.h] *)

(** [framework.h] is not part of the sources; its [vec2], [vec3] and [vec4]
    are the usual component-wise vectors. *)
Module V2.
(** Modelled from the spec: [vec2] of [framework.h], with [+], [-],
    [vec2 * float] (also [float * vec2]) and [vec2 / float]. *)
Record t : Type := mk { x : R; y : R }.
Definition add (a b : t) : t := mk (x a + x b) (y a + y b).
Definition sub (a b : t) : t := mk (x a - x b) (y a - y b).
Definition scale (a : t) (k : R) : t := mk (x a * k) (y a * k).
Definition div (a : t) (k : R) : t := mk (x a / k) (y a / k).
End V2.
Definition vec2 : Type := V2.t.

Module V3.
(** Modelled from the spec: [vec3] of [framework.h]. *)
Record t : Type := mk { x : R; y : R; z : R }.
Definition add (a b : t) : t := mk (x a + x b) (y a + y b) (z a + z b).
Definition sub (a b : t) : t := mk (x a - x b) (y a - y b) (z a - z b).
Definition scale (a : t) (k : R) : t := mk (x a * k) (y a * k) (z a * k).
Definition dot (a b : t) : R := x a * x b + y a * y b + z a * z b.
(** Modelled from the spec: [length] of [framework.h], the Euclidean norm
    [sqrtf(dot(v, v))]. *)
Definition length (a : t) : R := sqrt (dot a a).
(** Modelled from the spec: [normalize] of [framework.h],
    [v * (1 / length(v))]. *)
Definition normalize (a : t) : t := scale a (1 / length a).
End V3.
Definition vec3 : Type := V3.t.

Module V4.
(** Modelled from the spec: the homogeneous [vec4] (GLSL and
    [framework.h]) and its swizzle [.xyz]. *)
Record t : Type := mk { x : R; y : R; z : R; w : R }.
Definition xyz (a : t) : vec3 := V3.mk (x a) (y a) (z a).
End V4.
Definition vec4 : Type := V4.t.

(** ** [powf]

    On the reals [powf x y] is the integral power of [x] when [y] is an
    integer (also for [x <= 0]) and [exp (y * ln x)] otherwise. *)
Definition powf (x y : R) : R :=
  if Req_EM_T (IZR (Int_part y)) y then powerRZ x (Int_part y) else Rpower x y.

(** ** Dual numbers  ([template<class T> struct Dnum]) *)

(** What [Dnum<T>] asks of its derivative type [T]: [T(0)], [+], [-],
    [float * T], [T * float] and [T / float]. *)
Class DerivType (T : Type) : Type := {
  Tzero : T;
  Tadd : T -> T -> T;
  Tsub : T -> T -> T;
  Tlmul : R -> T -> T;
  Trmul : T -> R -> T;
  Tdiv : T -> R -> T
}.

#[export] Instance DerivType_float : DerivType R := {
  Tzero := 0%R;
  Tadd := Rplus;
  Tsub := Rminus;
  Tlmul := Rmult;
  Trmul := Rmult;
  Tdiv := Rdiv
}.

#[export] Instance DerivType_vec2 : DerivType vec2 := {
  Tzero := V2.mk 0 0;
  Tadd := V2.add;
  Tsub := V2.sub;
  Tlmul := fun k v => V2.scale v k;
  Trmul := V2.scale;
  Tdiv := V2.div
}.

Record Dnum (T : Type) : Type := mkDnum { f : R; d : T }.
Arguments mkDnum {T} f d.
Arguments f {T} _.
Arguments d {T} _.

Section DnumOps.
Context {T : Type} `{DerivType T}.
Local Open Scope R_scope.

Definition Dnum_add (l r : Dnum T) : Dnum T :=
  mkDnum (f l + f r) (Tadd (d l) (d r)).
Definition Dnum_sub (l r : Dnum T) : Dnum T :=
  mkDnum (f l - f r) (Tsub (d l) (d r)).
Definition Dnum_mul (l r : Dnum T) : Dnum T :=
  mkDnum (f l * f r) (Tadd (Tlmul (f l) (d r)) (Trmul (d l) (f r))).
Definition Dnum_div (l r : Dnum T) : Dnum T :=
  mkDnum (f l / f r)
    (Tdiv (Tdiv (Tsub (Tlmul (f r) (d l)) (Trmul (d r) (f l))) (f r)) (f r)).

Definition Exp (g : Dnum T) : Dnum T := mkDnum (exp (f g)) (Tlmul (exp (f g)) (d g)).
Definition Sin (g : Dnum T) : Dnum T := mkDnum (sin (f g)) (Tlmul (cos (f g)) (d g)).
Definition Cos (g : Dnum T) : Dnum T := mkDnum (cos (f g)) (Tlmul (- sin (f g)) (d g)).
Definition Tan (g : Dnum T) : Dnum T := Dnum_div (Sin g) (Cos g).
Definition Sinh (g : Dnum T) : Dnum T := mkDnum (sinh (f g)) (Tlmul (cosh (f g)) (d g)).
Definition Cosh (g : Dnum T) : Dnum T := mkDnum (cosh (f g)) (Tlmul (sinh (f g)) (d g)).
Definition Tanh (g : Dnum T) : Dnum T := Dnum_div (Sinh g) (Cosh g).
Definition Log (g : Dnum T) : Dnum T := mkDnum (ln (f g)) (Tdiv (d g) (f g)).
Definition Pow (g : Dnum T) (n : R) : Dnum T :=
  mkDnum (powf (f g) n) (Tlmul (n * powf (f g) (n - 1)) (d g)).
(** The constructor with its defaults: [Dnum(float f0 = 0, T d0 = T(0))]. *)
Definition Dnum_const (f0 : R) : Dnum T := mkDnum f0 Tzero.
End DnumOps.

Definition Dnum2 : Type := Dnum vec2.

(** ** The spectral height field  ([E], [coeffs], [A], [getTerrainInfo]) *)

Section HeightField.
Local Open Scope R_scope.

(** [double E(double A, int one, int two)]; the test [one + two == 0] is
    made on the [int] sum.  [getTerrainInfo] passes arguments of [0 .. n],
    whose sum stays in range as long as the index of the read does. *)
Definition E (A : R) (one two : Z) : R :=
  if (int_wrap (one + two) =? 0)%Z then 0
  else A / sqrt (powf (IZR one) 2 + powf (IZR two) 2).

(** The globals [double A] and [double* coeffs] (the table the pointer
    addresses). *)
Variable A : R.
Variable coeffs : list R.

(** [coeffs[(int)one * n + (int)two]]: the index is computed in [int] and
    the read is defined only inside the table. *)
Definition coeff_index (one n two : Z) : option Z :=
  a <- int_mul one n ;; int_add a two.

Definition coeffs_at (k : Z) : option R :=
  if (k <? 0)%Z then None else nth_error coeffs (Z.to_nat k).

Definition phase (one n two : Z) : option R :=
  k <- coeff_index one n two ;; coeffs_at k.

(** [void getTerrainInfo(float x, float y, int n, double &height, vec3& norm)];
    the two outputs are returned as a pair.  The [float] loop counters
    [one] and [two] take the integral values [0 .. n]. *)
Definition getTerrainInfo (x y : R) (n : Z) : option (R * vec3) :=
  let x := x * PI - PI in
  let y := y * PI - PI in
  total <- for_le n (fun one total =>
             for_le n (fun two total =>
               let e := E A one two in
               p <- phase one n two ;;
               let c := cos (IZR one * x + IZR two * y + p) in
               Some (total + e * c)) total) 0 ;;
  let height := total in
  dx <- for_le n (fun one dx =>
          for_le n (fun two dx =>
            let e := E A one two in
            p <- phase one n two ;;
            let c := -1 * sin (IZR one * x + IZR two * y + p) * IZR one in
            Some (dx + e * c)) dx) 0 ;;
  dy <- for_le n (fun one dy =>
          for_le n (fun two dy =>
            let e := E A one two in
            p <- phase one n two ;;
            let c := -1 * sin (IZR one * x + IZR two * y + p) * IZR two in
            Some (dy + e * c)) dy) 0 ;;
  Some (height, V3.mk (- dx) 1 (- dy)).

(** *** What the specification says of the height field *)

(** The sum of [g i] over [i = 0 .. n] (empty when [n < 0]). *)
Fixpoint sum_from (k : nat) (i : Z) (g : Z -> R) : R :=
  match k with
  | O => 0
  | S k' => g i + sum_from k' (i + 1) g
  end.

Definition sum_upto (n : Z) (g : Z -> R) : R := sum_from (Z.to_nat (n + 1)) 0 g.

(** The weight of the harmonic [(i, j)] in the words of the specification. *)
Definition E_spec (i j : Z) : R :=
  if ((i =? 0) && (j =? 0))%Z then 0
  else A / sqrt (IZR i * IZR i + IZR j * IZR j).

(** The table entry [coeffs[k]] of a table that covers [k]. *)
Definition coeff (k : Z) : R := nth (Z.to_nat k) coeffs 0.

(** The argument of the harmonic [(i, j)] at the angular point [(x', y')]. *)
Definition harmonic_arg (x' y' : R) (n i j : Z) : R :=
  IZR i * x' + IZR j * y' + coeff (i * n + j).

Definition height_spec (x' y' : R) (n : Z) : R :=
  sum_upto n (fun i => sum_upto n (fun j =>
    E_spec i j * cos (harmonic_arg x' y' n i j))).

Definition dheight_dx_spec (x' y' : R) (n : Z) : R :=
  sum_upto n (fun i => sum_upto n (fun j =>
    E_spec i j * (- IZR i * sin (harmonic_arg x' y' n i j)))).

Definition dheight_dy_spec (x' y' : R) (n : Z) : R :=
  sum_upto n (fun i => sum_upto n (fun j =>
    E_spec i j * (- IZR j * sin (harmonic_arg x' y' n i j)))).

(** The table covers every index a query of order [n] reads: there is no
    read when [n < 0], and the largest index read is [n * n + n]. *)
Definition covers (n : Z) : Prop :=
  (n < 0 \/ (n * n + n <= INT_MAX /\ n * n + n < Z.of_nat (length coeffs)))%Z.

End HeightField.

(** [onInitialization]: the part that fills the globals, [A = 0.5] and a
    table of [1000 * 1000] phases [(double)rand() / RAND_MAX * 500].  The
    values [rand()] returns call after call and the constant [RAND_MAX] of
    the C library are parameters. *)
Definition onInitialization (RAND_MAX : Z) (rand : nat -> Z) : R * list R :=
  (0.5%R,
   map (fun i => (IZR (rand i) / IZR RAND_MAX * 500)%R)
       (seq 0 (Z.to_nat (1000 * 1000)))).

(** ** The vertex shader of [PhongShader]: light vectors *)

Record Light : Type := mkLight { La : vec3; Le : vec3; wLightPos : vec4 }.

(** One round of the loop of [main] in [vertexSource]:
    [wLight[i] = lights[i].wLightPos.xyz * wPos.w - wPos.xyz * lights[i].wLightPos.w]. *)
Definition wLight_entry (light : Light) (wPos : vec4) : vec3 :=
  V3.sub (V3.scale (V4.xyz (wLightPos light)) (V4.w wPos))
         (V3.scale (V4.xyz wPos) (V4.w (wLightPos light))).

(** The whole loop, over the [nLights] lights bound by [Bind]. *)
Definition wLight (lights : list Light) (wPos : vec4) : list vec3 :=
  map (fun light => wLight_entry light wPos) lights.

(** ** The tessellated surface  ([ParamSurface]) *)

Definition tessellationLevel : Z := 200.

Record VertexData : Type := mkVertexData { position : vec3; normal : vec3; h : R }.

(** The members [nVtxPerStrip] and [nStrips] and the vertices handed to
    [glBufferData]. *)
Record ParamSurface : Type := mkParamSurface {
  nVtxPerStrip : Z;
  nStrips : Z;
  vbo_data : list VertexData
}.

(** [l[i] = v] on a [std::vector] (inside its bounds). *)
Fixpoint list_set {X : Type} (l : list X) (i : nat) (v : X) : list X :=
  match l, i with
  | [], _ => []
  | _ :: t, O => v :: t
  | a :: t, S i' => a :: list_set t i' v
  end.

(** [glBufferData] with a size of [count] vertices: it reads [count]
    vertices from [data]. *)
Definition glBufferData (count : Z) (data : list VertexData)
    : option (list VertexData) :=
  if (count <=? Z.of_nat (length data))%Z
  then Some (firstn (Z.to_nat count) data) else None.

Section Tessellation.
Local Open Scope R_scope.
Variable A : R.
Variable coeffs : list R.

(** [VertexData GenVertexData(float u, float v)] *)
Definition GenVertexData (u v : R) : option VertexData :=
  ' (hh, norm) <- getTerrainInfo A coeffs u v 35 ;;
  Some {| position := V3.mk (u * 15 - 7.5) hh (v * 15 - 7.5);
          h := hh;
          normal := norm |}.

(** The two nested loops of [create] that fill [vtxData], with
    [(float)j / M], [(float)i / N] and [(float)(i + 1) / N] ([i + 1 <= N]
    is an [int]). *)
Definition create_vertices (N M : Z) : option (list VertexData) :=
  for_lt N (fun i vtxData =>
    for_le M (fun j vtxData =>
      v1 <- GenVertexData (IZR j / IZR M) (IZR i / IZR N) ;;
      let vtxData := vtxData ++ [v1] in
      v2 <- GenVertexData (IZR j / IZR M) (IZR (i + 1) / IZR N) ;;
      Some (vtxData ++ [v2])) vtxData) [].

(** The scan for [min] and [max]; the [int] counter has to reach
    [vtxData.size()]. *)
Definition create_min_max (vtxData : list VertexData) : option (R * R) :=
  v0 <- nth_error vtxData 0 ;;
  let min := h v0 in
  let max := h v0 in
  size <- int_checked (Z.of_nat (length vtxData)) ;;
  for_from_lt 1 size (fun i mm =>
    let '(min, max) := mm in
    v <- nth_error vtxData (Z.to_nat i) ;;
    if Rgt_dec (h v) max then Some (min, h v)
    else if Rlt_dec (h v) min then Some (h v, max)
    else Some (min, max)) (min, max).

(** The loop that rewrites every [h]. *)
Definition create_normalize (min max : R) (vtxData : list VertexData)
    : option (list VertexData) :=
  size <- int_checked (Z.of_nat (length vtxData)) ;;
  for_lt size (fun i vtxData =>
    v <- nth_error vtxData (Z.to_nat i) ;;
    Some (list_set vtxData (Z.to_nat i)
            {| position := position v;
               normal := normal v;
               h := (h v - min) / (max - min) |})) vtxData.

(** [void create(int N = tessellationLevel, int M = tessellationLevel)] *)
Definition create (N M : Z) : option ParamSurface :=
  m1 <- int_add M 1 ;;
  m2 <- int_mul m1 2 ;;
  let nVtxPerStrip := to_unsigned m2 in
  let nStrips := to_unsigned N in
  vtxData <- create_vertices N M ;;
  ' (min, max) <- create_min_max vtxData ;;
  vtxData <- create_normalize min max vtxData ;;
  data <- glBufferData (to_unsigned (nVtxPerStrip * nStrips)) vtxData ;;
  Some {| nVtxPerStrip := nVtxPerStrip; nStrips := nStrips; vbo_data := data |}.

(** [Terrain() { create(); }] *)
Definition Terrain : option ParamSurface := create tessellationLevel tessellationLevel.

(** *** What the specification says of the mesh *)

(** The height at the parametric point [(u, v)]. *)
Definition raw_height (u v : R) : R :=
  height_spec A coeffs (u * PI - PI) (v * PI - PI) 35.

(** The parametric points of the two vertices of [(row, col)]. *)
Definition grid_pair (N M row col : Z) : list (R * R) :=
  [ (IZR col / IZR M, IZR row / IZR N);
    (IZR col / IZR M, IZR (row + 1) / IZR N) ].

(** The values [g i], [i = a, a + 1, ...], [k] of them, one after another. *)
Fixpoint concat_from {X : Type} (k : nat) (i : Z) (g : Z -> list X) : list X :=
  match k with
  | O => []
  | S k' => g i ++ concat_from k' (i + 1) g
  end.

(** All parametric points, strip after strip. *)
Definition grid_points (N M : Z) : list (R * R) :=
  concat_from (Z.to_nat N) 0 (fun row =>
    concat_from (Z.to_nat (M + 1)) 0 (fun col => grid_pair N M row col)).

Definition raw_heights (N M : Z) : list R :=
  map (fun uv => raw_height (fst uv) (snd uv)) (grid_points N M).

(** The vertex at the parametric point [(u, v)], before the heights are
    rescaled. *)
Definition vertex_spec (u v : R) : VertexData :=
  {| position := V3.mk (u * 15 - 7.5) (raw_height u v) (v * 15 - 7.5);
     normal :=
       V3.mk (- dheight_dx_spec A coeffs (u * PI - PI) (v * PI - PI) 35) 1
             (- dheight_dy_spec A coeffs (u * PI - PI) (v * PI - PI) 35);
     h := raw_height u v |}.

End Tessellation.

(** One round of the scan of [create] as a function of the pair
    [(min, max)] and the vertex read. *)
Definition scan_step (mm : R * R) (v : VertexData) : R * R :=
  let '(min, max) := mm in
  if Rgt_dec (h v) max then (min, h v)
  else if Rlt_dec (h v) min then (h v, max)
  else (min, max).

(** One round of the rescaling loop of [create] as a function of the
    vertex read. *)
Definition rescale (min max : R) (v : VertexData) : VertexData :=
  {| position := position v;
     normal := normal v;
     h := (h v - min) / (max - min) |}.

(** The least and the greatest element of a list of reals. *)
Definition Rlist_min (l : list R) : R :=
  match l with
  | [] => 0%R
  | a :: t => fold_left Rmin t a
  end.

Definition Rlist_max (l : list R) : R :=
  match l with
  | [] => 0%R
  | a :: t => fold_left Rmax t a
  end.

(** [void Draw()]: the calls [glDrawArrays(GL_TRIANGLE_STRIP, first, count)]
    it issues, as pairs [(first, count)]; the product is an [unsigned int]. *)
Definition Draw (s : ParamSurface) : list (Z * Z) :=
  map (fun i => (to_unsigned (Z.of_nat i * nVtxPerStrip s), nVtxPerStrip s))
      (seq 0 (Z.to_nat (nStrips s))).

(** The vertex indices [first, first + 1, ..., first + count - 1] a call
    draws. *)
Definition strip_range (call : Z * Z) : list Z :=
  map (fun k => (fst call + Z.of_nat k)%Z) (seq 0 (Z.to_nat (snd call))).

(** ** Objects *)

(** Addresses of the shared [Shader], [Material], [Texture] and [Geometry]. *)
Definition pointer : Type := nat.

Record Object : Type := mkObject {
  shader : pointer;
  material : pointer;
  texture : pointer;
  geometry : pointer;
  scale : vec3;
  translation : vec3;
  rotationAxis : vec3;
  rotationAngle : R
}.

(** [virtual void Animate(float tstart, float tend)] *)
Definition Animate (tstart tend : R) (o : Object) : Object :=
  {| shader := shader o;
     material := material o;
     texture := texture o;
     geometry := geometry o;
     scale := scale o;
     translation := translation o;
     rotationAxis := rotationAxis o;
     rotationAngle := 0.8 * tend |}.

(** ** What a dual number stands for *)

(** [g] carries the value and the derivative at [t] of the function [G]. *)
Definition tracks (G : R -> R) (t : R) (g : Dnum R) : Prop :=
  f g = G t /\ derivable_pt_lim G t (d g).

(** ** [CheckerBoardTexture] *)

Definition yellow : vec4 := V4.mk 1 1 0 1.
Definition blue : vec4 := V4.mk 0 0 1 1.

(** [(x & 1) ^ (y & 1) ? yellow : blue] *)
Definition checker_color (x y : Z) : vec4 :=
  if (Z.lxor (Z.land x 1) (Z.land y 1) =? 0)%Z then blue else yellow.

Section CheckerBoard.
(** The value of a default-constructed [vec4] of [framework.h], with which
    [std::vector<vec4> image(width * height)] is filled. *)
Variable vec4_default : vec4.

(** [CheckerBoardTexture(const int width, const int height)]: the image
    handed to [create(width, height, image, GL_NEAREST)].  A negative
    [width * height] converts to a size no vector can have (the constructor
    throws). *)
Definition CheckerBoardTexture (width height : Z) : option (list vec4) :=
  size <- int_mul width height ;;
  if (size <? 0)%Z then None
  else
    let image := repeat vec4_default (Z.to_nat size) in
    for_lt width (fun x image =>
      for_lt height (fun y image =>
        a <- int_mul y width ;;
        k <- int_add a x ;;
        if ((k <? 0) || (Z.of_nat (length image) <=? k))%Z then None
        else Some (list_set image (Z.to_nat k) (checker_color x y))) image) image.
End CheckerBoard.

(** ** The fragment shader of [PhongShader] *)

Record Material : Type := mkMaterial {
  kd : vec3;
  ks : vec3;
  ka : vec3;
  shininess : R
}.

(** GLSL [-v], [v * w] (component-wise) and [v / k] on [vec3]. *)
Definition vec3_neg (a : vec3) : vec3 := V3.mk (- V3.x a) (- V3.y a) (- V3.z a).
Definition vec3_mul (a b : vec3) : vec3 :=
  V3.mk (V3.x a * V3.x b) (V3.y a * V3.y b) (V3.z a * V3.z b).
Definition vec3_div (a : vec3) (k : R) : vec3 :=
  V3.mk (V3.x a / k) (V3.y a / k) (V3.z a / k).

Section FragmentShader.
Local Open Scope R_scope.
(** The GLSL built-in [pow]. *)
Variable pow : R -> R -> R.

(** One round of the loop of [main] in [fragmentSource]: the value added to
    [radiance] for the light vector [wLight[i]] and the radiance
    [lights[i].Le]. *)
Definition fragment_light (material : Material) (c N V : vec3)
    (wLight_i Le_i : vec3) : vec3 :=
  let L := V3.normalize wLight_i in
  let H := V3.normalize (V3.add L V) in
  let cost := Rabs (V3.dot N L) in
  let cosd := Rabs (V3.dot N H) in
  vec3_mul
    (V3.add (V3.scale c cost)
            (V3.scale (vec3_div (V3.scale (ks material) 1) 4)
                      (pow cosd (shininess material))))
    Le_i.

(** [main] of [fragmentSource]: [fragmentColor] from the uniforms
    [material], [lights], [nLights] and the inputs [wNormal], [wView],
    [wLight], [wH].  The arrays are read at [0 .. nLights - 1]. *)
Definition fragment_main (material : Material) (lights : list Light)
    (nLights : Z) (wNormal wView : vec3) (wLight : list vec3) (wH : R)
    : option vec4 :=
  let c := V3.add (V3.scale (V3.sub (kd material) (V3.mk 1 0 0)) (wH * 0.7))
                  (kd material) in
  let N := V3.normalize wNormal in
  let V := V3.normalize wView in
  let N := if Rlt_dec (V3.dot N V) 0 then vec3_neg N else N in
  radiance <- for_lt nLights (fun i radiance =>
                light <- nth_error lights (Z.to_nat i) ;;
                wLight_i <- nth_error wLight (Z.to_nat i) ;;
                Some (V3.add radiance
                        (fragment_light material c N V wLight_i (Le light))))
              (V3.mk 0 0 0) ;;
  Some (V4.mk (V3.x radiance) (V3.y radiance) (V3.z radiance) 1).
End FragmentShader.

(** ** [Scene::Animate] and [onIdle] *)





(** ** Proof-side notions for the further properties *)


(** The table [coeffs] with entry [0] replaced. *)
Definition with_first_phase (p : R) (coeffs : list R) : list R :=
  match coeffs with
  | [] => []
  | _ :: t => p :: t
  end.

(** The height a query returns, as a function of the domain point ([0]
    where the query is undefined). *)
Definition returned_height (A : R) (coeffs : list R) (n : Z) (x y : R) : R :=
  match getTerrainInfo A coeffs x y n with
  | Some (height, _) => height
  | None => 0%R
  end.

(** * Properties *)

(** ** Loops *)

Lemma bind_Some {A B : Type} (c : option A) (k : A -> option B) (b : B) :
  bind c k = Some b -> exists a, c = Some a /\ k a = Some b.
Proof.
  destruct c as [a|]; simpl; intros Hb; [exists a; auto | discriminate].
Qed.

(** Inversion of one step of a run that returned. *)
Ltac bind_inv H x Hx :=
  apply bind_Some in H; destruct H as (x & Hx & H).

(** Side conditions on the [int] range. *)
Ltac int_range := unfold INT_MIN, INT_MAX in *; lia.

(** A loop whose body adds [g i] to its accumulator computes a sum. *)
Lemma for_loop_sum (body : Z -> R -> option R) (g : Z -> R) :
  forall (fuel : nat) (i : Z) (s : R),
    (forall j acc, (i <= j < i + Z.of_nat fuel)%Z ->
                   body j acc = Some (acc + g j)%R) ->
    for_loop fuel i body s = Some (s + sum_from fuel i g)%R.
Proof.
  induction fuel as [|fuel IH]; intros i s Hbody; simpl.
  - f_equal. lra.
  - rewrite Hbody by lia. simpl.
    rewrite IH by (intros; apply Hbody; lia).
    f_equal. lra.
Qed.

(** A loop fails as soon as one round in its range fails. *)
Lemma for_loop_fail {S : Type} (body : Z -> S -> option S) :
  forall (fuel : nat) (i j : Z) (s : S),
    (i <= j < i + Z.of_nat fuel)%Z ->
    (forall acc, body j acc = None) ->
    for_loop fuel i body s = None.
Proof.
  induction fuel as [|fuel IH]; intros i j s Hj Hfail; [lia|].
  simpl. destruct (Z.eq_dec i j) as [->|Hne].
  - rewrite Hfail. reflexivity.
  - destruct (body i s) as [s'|]; simpl; [|reflexivity].
    apply (IH (i + 1)%Z j); [lia | assumption].
Qed.

Lemma sum_from_ext (g g' : Z -> R) :
  forall (k : nat) (i : Z),
    (forall j, (i <= j < i + Z.of_nat k)%Z -> g j = g' j) ->
    sum_from k i g = sum_from k i g'.
Proof.
  induction k as [|k IH]; intros i Hg; simpl; [reflexivity|].
  rewrite Hg by lia. rewrite (IH (i + 1)%Z); [reflexivity|].
  intros; apply Hg; lia.
Qed.

Lemma for_le_sum (n : Z) (body : Z -> R -> option R) (g : Z -> R) (s : R) :
  (forall j acc, (0 <= j <= n)%Z -> body j acc = Some (acc + g j)%R) ->
  for_le n body s = Some (s + sum_upto n g)%R.
Proof.
  intros Hbody. unfold for_le, sum_upto. apply for_loop_sum.
  intros j acc Hj. apply Hbody. lia.
Qed.

Lemma for_le_fail {S : Type} (n j : Z) (body : Z -> S -> option S) (s : S) :
  (0 <= j <= n)%Z -> (forall acc, body j acc = None) -> for_le n body s = None.
Proof.
  intros Hj Hfail. unfold for_le. apply (for_loop_fail body _ 0%Z j); [lia | assumption].
Qed.

Lemma sum_upto_ext (n : Z) (g g' : Z -> R) :
  (forall j, (0 <= j <= n)%Z -> g j = g' j) -> sum_upto n g = sum_upto n g'.
Proof.
  intros Hg. unfold sum_upto. apply sum_from_ext. intros; apply Hg; lia.
Qed.

(** ** [powf] and the weight [E] *)

Lemma Int_part_IZR (k : Z) : Int_part (IZR k) = k.
Proof.
  unfold Int_part.
  assert (Hup : up (IZR k) = (k + 1)%Z).
  { symmetry. apply tech_up; rewrite plus_IZR; lra. }
  rewrite Hup. lia.
Qed.

Lemma powf_2 (x : R) : powf x 2 = (x * x)%R.
Proof.
  unfold powf. rewrite (Int_part_IZR 2).
  destruct (Req_EM_T 2 2) as [_|Hne]; [|contradiction].
  simpl. lra.
Qed.

Lemma int_wrap_id (z : Z) : (INT_MIN <= z <= INT_MAX)%Z -> int_wrap z = z.
Proof.
  unfold int_wrap, INT_MIN, INT_MAX, UINT_MOD. intros Hz.
  rewrite Z.mod_small; lia.
Qed.

(** On the arguments [getTerrainInfo] passes, [E] is the weight of the
    specification. *)
Lemma E_is_E_spec (A : R) (i j : Z) :
  (0 <= i)%Z -> (0 <= j)%Z -> (i + j <= INT_MAX)%Z -> E A i j = E_spec A i j.
Proof.
  intros Hi Hj Hij. unfold E, E_spec.
  rewrite int_wrap_id by (unfold INT_MIN, INT_MAX in *; lia).
  rewrite !powf_2.
  destruct (Z.eqb_spec (i + j) 0) as [H0|H0].
  - assert (i = 0%Z) by lia. assert (j = 0%Z) by lia. subst. reflexivity.
  - destruct (Z.eqb_spec i 0) as [->|Hi0]; simpl; [|reflexivity].
    destruct (Z.eqb_spec j 0) as [->|Hj0]; [lia | reflexivity].
Qed.

(** ** Reads of the phase table *)

Lemma int_checked_in (z : Z) :
  (INT_MIN <= z <= INT_MAX)%Z -> int_checked z = Some z.
Proof.
  intros Hz. unfold int_checked.
  destruct (Z.leb_spec INT_MIN z); [|lia].
  destruct (Z.leb_spec z INT_MAX); [reflexivity | lia].
Qed.

Lemma int_checked_Some (z r : Z) :
  int_checked z = Some r -> r = z /\ (INT_MIN <= z <= INT_MAX)%Z.
Proof.
  unfold int_checked.
  destruct (Z.leb_spec INT_MIN z); destruct (Z.leb_spec z INT_MAX);
    simpl; intros Hr; inversion Hr; subst; lia.
Qed.

Lemma index_bound (n i j : Z) :
  (0 <= i <= n)%Z -> (0 <= j <= n)%Z ->
  (0 <= i * n /\ i * n <= n * n /\ 0 <= i * n + j <= n * n + n)%Z.
Proof. intros Hi Hj. nia. Qed.

Lemma phase_covered (coeffs : list R) (n i j : Z) :
  (0 <= i <= n)%Z -> (0 <= j <= n)%Z ->
  (n * n + n <= INT_MAX)%Z -> (n * n + n < Z.of_nat (length coeffs))%Z ->
  phase coeffs i n j = Some (coeff coeffs (i * n + j)).
Proof.
  intros Hi Hj Hmax Hlen.
  destruct (index_bound n i j Hi Hj) as (H1 & H2 & H3).
  unfold phase, coeff_index, int_mul, int_add.
  rewrite int_checked_in by int_range. simpl.
  rewrite int_checked_in by int_range. simpl.
  unfold coeffs_at, coeff.
  destruct (Z.ltb_spec (i * n + j) 0); [lia|].
  apply nth_error_nth'. lia.
Qed.

(** A read succeeds only inside the table and inside the [int] range. *)
Lemma phase_Some (coeffs : list R) (n i j : Z) (p : R) :
  phase coeffs i n j = Some p ->
  (0 <= i * n + j <= INT_MAX /\ i * n + j < Z.of_nat (length coeffs))%Z.
Proof.
  unfold phase, coeff_index, int_mul, int_add. intros Hp.
  bind_inv Hp k Hk.
  bind_inv Hk a Ha.
  apply int_checked_Some in Ha. destruct Ha as [-> _].
  apply int_checked_Some in Hk. destruct Hk as [-> Hr].
  unfold coeffs_at in Hp.
  destruct (Z.ltb_spec (i * n + j) 0); [discriminate|].
  assert (Hlt : (Z.to_nat (i * n + j) < length coeffs)%nat).
  { apply nth_error_Some. rewrite Hp. discriminate. }
  lia.
Qed.

(** ** [getTerrainInfo] against the three double sums *)

(** One of the three double loops, when every read is covered. *)
Lemma harmonic_loops (A : R) (coeffs : list R) (n : Z)
    (term : Z -> Z -> R -> R) :
  (0 <= n)%Z -> (n * n + n <= INT_MAX)%Z ->
  (n * n + n < Z.of_nat (length coeffs))%Z ->
  for_le n (fun one acc =>
    for_le n (fun two acc =>
      p <- phase coeffs one n two ;;
      Some (acc + E A one two * term one two p)%R) acc) 0%R
  = Some (sum_upto n (fun i => sum_upto n (fun j =>
            E_spec A i j * term i j (coeff coeffs (i * n + j)))))%R.
Proof.
  intros Hn Hmax Hlen.
  rewrite (for_le_sum n _ (fun i => sum_upto n (fun j =>
            E_spec A i j * term i j (coeff coeffs (i * n + j)))%R)).
  - f_equal. lra.
  - intros i acc Hi.
    apply for_le_sum. intros j acc' Hj.
    rewrite (phase_covered coeffs n i j) by assumption. simpl.
    rewrite E_is_E_spec by nia. reflexivity.
Qed.

(** The whole of [getTerrainInfo] on a covering table. *)
Lemma getTerrainInfo_eq (A : R) (coeffs : list R) (x y : R) (n : Z) :
  covers coeffs n ->
  getTerrainInfo A coeffs x y n
  = Some (height_spec A coeffs (x * PI - PI) (y * PI - PI) n,
          V3.mk (- dheight_dx_spec A coeffs (x * PI - PI) (y * PI - PI) n) 1
                (- dheight_dy_spec A coeffs (x * PI - PI) (y * PI - PI) n)).
Proof.
  intros [Hneg | [Hmax Hlen]].
  - unfold getTerrainInfo, height_spec, dheight_dx_spec, dheight_dy_spec,
      for_le, sum_upto.
    replace (Z.to_nat (n + 1)) with O by lia. reflexivity.
  - destruct (Z_lt_le_dec n 0) as [Hneg | Hn].
    + unfold getTerrainInfo, height_spec, dheight_dx_spec, dheight_dy_spec,
        for_le, sum_upto.
      replace (Z.to_nat (n + 1)) with O by lia. reflexivity.
    + unfold getTerrainInfo.
      set (x' := (x * PI - PI)%R). set (y' := (y * PI - PI)%R).
      rewrite (harmonic_loops A coeffs n
                 (fun i j p => cos (IZR i * x' + IZR j * y' + p))%R)
        by assumption.
      simpl.
      rewrite (harmonic_loops A coeffs n
                 (fun i j p => -1 * sin (IZR i * x' + IZR j * y' + p) * IZR i)%R)
        by assumption.
      simpl.
      rewrite (harmonic_loops A coeffs n
                 (fun i j p => -1 * sin (IZR i * x' + IZR j * y' + p) * IZR j)%R)
        by assumption.
      simpl.
      unfold height_spec, dheight_dx_spec, dheight_dy_spec, harmonic_arg.
      f_equal. f_equal. f_equal.
      * f_equal. apply sum_upto_ext; intros i Hi. apply sum_upto_ext; intros j Hj. ring.
      * f_equal. apply sum_upto_ext; intros i Hi. apply sum_upto_ext; intros j Hj. ring.
Qed.

(** Conversely a read that is not covered makes the whole query undefined. *)
Lemma getTerrainInfo_read_fails (A : R) (coeffs : list R) (x y : R) (n i j : Z) :
  (0 <= i <= n)%Z -> (0 <= j <= n)%Z ->
  phase coeffs i n j = None ->
  getTerrainInfo A coeffs x y n = None.
Proof.
  intros Hi Hj Hfail. unfold getTerrainInfo.
  rewrite (for_le_fail n i); [reflexivity | assumption |].
  intros acc. apply (for_le_fail n j); [assumption|].
  intros acc'. rewrite Hfail. reflexivity.
Qed.

Lemma getTerrainInfo_defined_iff (A : R) (coeffs : list R) (x y : R) (n : Z) :
  (0 <= n)%Z ->
  getTerrainInfo A coeffs x y n <> None <->
  (n * n + n <= INT_MAX /\ n * n + n < Z.of_nat (length coeffs))%Z.
Proof.
  intros Hn. split.
  - intros Hdef.
    destruct (phase coeffs n n n) as [p|] eqn:Hp.
    + apply phase_Some in Hp. lia.
    + exfalso. apply Hdef.
      apply (getTerrainInfo_read_fails A coeffs x y n n n); [lia | lia | assumption].
  - intros [Hmax Hlen].
    rewrite getTerrainInfo_eq by (right; split; assumption). discriminate.
Qed.

(** A query is defined exactly on the tables that cover its reads. *)
Lemma getTerrainInfo_defined (A : R) (coeffs : list R) (x y : R) (n : Z) :
  getTerrainInfo A coeffs x y n <> None <-> covers coeffs n.
Proof.
  destruct (Z_lt_le_dec n 0) as [Hneg | Hn].
  - split; intros _.
    + left. assumption.
    + rewrite getTerrainInfo_eq by (left; assumption). discriminate.
  - rewrite getTerrainInfo_defined_iff by assumption. unfold covers.
    split; [intros Hc; right; exact Hc | intros [Hneg | Hc]; [lia | exact Hc]].
Qed.

(** Whatever a query returns is the triple of double sums. *)
Lemma getTerrainInfo_Some (A : R) (coeffs : list R) (x y : R) (n : Z)
    (height : R) (norm : vec3) :
  getTerrainInfo A coeffs x y n = Some (height, norm) ->
  covers coeffs n
  /\ height = height_spec A coeffs (x * PI - PI) (y * PI - PI) n
  /\ norm = V3.mk (- dheight_dx_spec A coeffs (x * PI - PI) (y * PI - PI) n) 1
                  (- dheight_dy_spec A coeffs (x * PI - PI) (y * PI - PI) n).
Proof.
  intros Hrun.
  assert (Hcov : covers coeffs n).
  { apply (getTerrainInfo_defined A coeffs x y n). rewrite Hrun. discriminate. }
  rewrite getTerrainInfo_eq in Hrun by assumption.
  inversion Hrun. auto.
Qed.

(** ** Lengths of normals *)

Lemma V3_length_up (a b : R) :
  V3.length (V3.mk a 1 b) = sqrt (a * a + 1 + b * b).
Proof. unfold V3.length, V3.dot. simpl. f_equal. ring. Qed.

Lemma V3_length_up_ge_1 (a b : R) : (1 <= V3.length (V3.mk a 1 b))%R.
Proof.
  rewrite V3_length_up. rewrite <- sqrt_1 at 1.
  apply sqrt_le_1_alt. nra.
Qed.

Lemma V3_length_up_eq_1 (a b : R) :
  V3.length (V3.mk a 1 b) = 1%R <-> a = 0%R /\ b = 0%R.
Proof.
  rewrite V3_length_up. split.
  - intros Hs.
    assert (Hsq : (a * a + 1 + b * b = 1)%R).
    { rewrite <- (sqrt_sqrt (a * a + 1 + b * b)) by nra. rewrite Hs. ring. }
    split; nra.
  - intros [-> ->]. replace (0 * 0 + 1 + 0 * 0)%R with 1%R by ring. apply sqrt_1.
Qed.

Lemma V3_length_scale (v : vec3) (k : R) :
  (0 <= k)%R -> V3.length (V3.scale v k) = (V3.length v * k)%R.
Proof.
  intros Hk. unfold V3.length, V3.scale, V3.dot. simpl.
  replace (V3.x v * k * (V3.x v * k) + V3.y v * k * (V3.y v * k)
           + V3.z v * k * (V3.z v * k))%R
    with ((V3.x v * V3.x v + V3.y v * V3.y v + V3.z v * V3.z v) * (k * k))%R by ring.
  rewrite sqrt_mult_alt by nra.
  rewrite sqrt_square by assumption. reflexivity.
Qed.

(** Normalising a vector of non-zero length gives a unit vector. *)
Lemma V3_normalize_unit (v : vec3) :
  V3.length v <> 0%R -> V3.length (V3.normalize v) = 1%R.
Proof.
  intros Hv. unfold V3.normalize.
  assert (Hpos : (0 < V3.length v)%R).
  { assert (0 <= V3.length v)%R by apply sqrt_pos. lra. }
  rewrite V3_length_scale.
  - field. assumption.
  - apply Rlt_le. apply Rdiv_lt_0_compat; lra.
Qed.

(** ** The height returned by [getTerrainInfo] *)

Lemma E_2_3_4 : E 2 3 4 = 0.4%R.
Proof.
  rewrite E_is_E_spec by (unfold INT_MAX; lia). unfold E_spec. simpl.
  replace (3 * 3 + 4 * 4)%R with (5 * 5)%R by ring.
  rewrite sqrt_square by lra. lra.
Qed.

Lemma E_2_1_0 : E 2 1 0 = 2%R.
Proof.
  rewrite E_is_E_spec by (unfold INT_MAX; lia). unfold E_spec. simpl.
  replace (1 * 1 + 0 * 0)%R with 1%R by ring.
  rewrite sqrt_1. lra.
Qed.

Lemma covers_weights_in_range (coeffs : list R) (n i j : Z) :
  covers coeffs n -> (0 <= i <= n)%Z -> (0 <= j <= n)%Z -> (i + j <= INT_MAX)%Z.
Proof. intros [Hneg | [Hmax Hlen]] Hi Hj; nia. Qed.

(** C1.  On a phase table that covers every index read, [getTerrainInfo]
    maps [x' = x * PI - PI], [y' = y * PI - PI] and returns as height the
    double sum over [i, j] in [0 .. n] of
    [E(A,i,j) * cos (i * x' + j * y' + coeffs[i * n + j])]; the weight [E] of
    the code is [0] at [i = j = 0] and [A / sqrt (i^2 + j^2)] at the other
    harmonics of the sum, with [E(2,3,4) = 0.4] and [E(2,1,0) = 2]. *)
Theorem getTerrainInfo_height (A : R) (coeffs : list R) (x y : R) (n : Z) :
  covers coeffs n ->
  (exists norm,
     getTerrainInfo A coeffs x y n
     = Some (sum_upto n (fun i => sum_upto n (fun j =>
               E_spec A i j
               * cos (IZR i * (x * PI - PI) + IZR j * (y * PI - PI)
                      + coeff coeffs (i * n + j))))%R,
             norm))
  /\ (forall i j, (0 <= i <= n)%Z -> (0 <= j <= n)%Z ->
        E A i j = (if ((i =? 0) && (j =? 0))%Z then 0
                   else A / sqrt (IZR i * IZR i + IZR j * IZR j))%R)
  /\ E A 0 0 = 0%R /\ E 2 3 4 = 0.4%R /\ E 2 1 0 = 2%R.
Proof.
  intros Hcov. split; [|split; [|split; [|split]]].
  - eexists. rewrite getTerrainInfo_eq by assumption. reflexivity.
  - intros i j Hi Hj. rewrite E_is_E_spec; [reflexivity | lia | lia |].
    apply (covers_weights_in_range coeffs n); assumption.
  - unfold E. reflexivity.
  - apply E_2_3_4.
  - apply E_2_1_0.
Qed.

Lemma covers_repeat (v : R) (k : nat) (n : Z) :
  (0 <= n)%Z -> (n * n + n <= INT_MAX)%Z -> (n * n + n < Z.of_nat k)%Z ->
  covers (repeat v k) n.
Proof. intros Hn Hmax Hk. right. rewrite repeat_length. split; assumption. Qed.

(** The table of 1261 zero phases covers a query of order 35. *)
Lemma zero_table_covers_35 : covers (repeat 0%R 1261) 35.
Proof. apply covers_repeat; unfold INT_MAX; lia. Qed.

Lemma getTerrainInfo_height_witness :
  covers (repeat 0%R 1261) 35
  /\ exists norm,
       getTerrainInfo 0.5 (repeat 0%R 1261) 0.5 0.5 35
       = Some (height_spec 0.5 (repeat 0%R 1261) (0.5 * PI - PI) (0.5 * PI - PI) 35,
               norm).
Proof.
  pose proof zero_table_covers_35 as Hcov.
  split; [exact Hcov|].
  apply (getTerrainInfo_height 0.5 (repeat 0%R 1261) 0.5 0.5 35 Hcov).
Defined.

(** ** The normal returned by [getTerrainInfo] *)

(** C2.  The normal returned by [getTerrainInfo] (a query returns exactly
    when the table covers its reads) is the vector
    [(- dheight/dx, 1, - dheight/dy)] itself, where the two derivatives are
    the double sums with the factors [- i * sin(.)] and [- j * sin(.)]
    weighted by [E(A,i,j)]; it is not normalised, and its length is [1]
    exactly when both derivative sums are [0]. *)
Theorem unnormalized_normal (A : R) (coeffs : list R) (x y : R) (n : Z) :
  let dx := sum_upto n (fun i => sum_upto n (fun j =>
              E_spec A i j
              * (- IZR i * sin (IZR i * (x * PI - PI) + IZR j * (y * PI - PI)
                                + coeff coeffs (i * n + j)))))%R in
  let dy := sum_upto n (fun i => sum_upto n (fun j =>
              E_spec A i j
              * (- IZR j * sin (IZR i * (x * PI - PI) + IZR j * (y * PI - PI)
                                + coeff coeffs (i * n + j)))))%R in
  (getTerrainInfo A coeffs x y n <> None <-> covers coeffs n)
  /\ forall height norm,
       getTerrainInfo A coeffs x y n = Some (height, norm) ->
       norm = V3.mk (- dx) 1 (- dy)
       /\ (V3.length norm = 1%R <-> dx = 0%R /\ dy = 0%R).
Proof.
  intros dx dy. split; [apply getTerrainInfo_defined|].
  intros height norm Hrun.
  apply getTerrainInfo_Some in Hrun. destruct Hrun as (_ & _ & Hnorm).
  split; [exact Hnorm|].
  rewrite Hnorm. unfold dheight_dx_spec, dheight_dy_spec, harmonic_arg.
  fold dx. fold dy.
  rewrite V3_length_up_eq_1. split; intros [Ha Hb]; split; lra.
Qed.

Lemma unnormalized_normal_witness :
  exists height norm,
    getTerrainInfo 0.5 (repeat 0%R 1261) 0.5 0.5 35 = Some (height, norm)
    /\ norm = V3.mk (- dheight_dx_spec 0.5 (repeat 0%R 1261)
                                      (0.5 * PI - PI) (0.5 * PI - PI) 35) 1
                    (- dheight_dy_spec 0.5 (repeat 0%R 1261)
                                      (0.5 * PI - PI) (0.5 * PI - PI) 35).
Proof.
  pose proof (getTerrainInfo_eq 0.5 (repeat 0%R 1261) 0.5 0.5 35
                zero_table_covers_35) as Hrun.
  eexists. eexists. split; [exact Hrun|].
  exact (proj1 (proj2 (unnormalized_normal 0.5 (repeat 0%R 1261) 0.5 0.5 35)
                  _ _ Hrun)).
Defined.

(** The query used against the normalised-normal reading: order [1], all
    three phases read equal to [PI / 2], amplitude [1], domain point
    [(1, 1)], which is the angular point [(0, 0)]. *)
Lemma quarter_table_dx :
  dheight_dx_spec 1 [PI / 2; PI / 2; PI / 2]%R (1 * PI - PI) (1 * PI - PI) 1
  = (- (E_spec 1 1 0 + E_spec 1 1 1))%R.
Proof.
  unfold dheight_dx_spec, sum_upto, harmonic_arg, coeff. simpl.
  replace (0 * (1 * PI - PI) + 0 * (1 * PI - PI) + PI / 2)%R with (PI / 2)%R by ring.
  replace (0 * (1 * PI - PI) + 1 * (1 * PI - PI) + PI / 2)%R with (PI / 2)%R by ring.
  replace (1 * (1 * PI - PI) + 0 * (1 * PI - PI) + PI / 2)%R with (PI / 2)%R by ring.
  replace (1 * (1 * PI - PI) + 1 * (1 * PI - PI) + PI / 2)%R with (PI / 2)%R by ring.
  rewrite sin_PI2. ring.
Qed.

Lemma quarter_table_dx_neg :
  (dheight_dx_spec 1 [PI / 2; PI / 2; PI / 2] (1 * PI - PI) (1 * PI - PI) 1 < 0)%R.
Proof.
  rewrite quarter_table_dx. unfold E_spec. simpl.
  assert (H1 : (0 < 1 / sqrt (1 * 1 + 0 * 0))%R).
  { apply Rdiv_lt_0_compat; [lra | apply sqrt_lt_R0; lra]. }
  assert (H2 : (0 < 1 / sqrt (1 * 1 + 1 * 1))%R).
  { apply Rdiv_lt_0_compat; [lra | apply sqrt_lt_R0; lra]. }
  lra.
Qed.

(** C2, as stated, fails: at this query the returned normal has positive
    first component next to the second component [1], so it is not a unit
    vector and differs from its own normalisation. *)
Lemma terrain_normal_not_unit :
  exists height norm,
    getTerrainInfo 1 [PI / 2; PI / 2; PI / 2]%R 1 1 1 = Some (height, norm)
    /\ V3.length norm <> 1%R
    /\ norm <> V3.normalize
                 (V3.mk (- dheight_dx_spec 1 [PI / 2; PI / 2; PI / 2]%R
                                           (1 * PI - PI) (1 * PI - PI) 1) 1
                        (- dheight_dy_spec 1 [PI / 2; PI / 2; PI / 2]%R
                                           (1 * PI - PI) (1 * PI - PI) 1)).
Proof.
  assert (Hcov : covers [PI / 2; PI / 2; PI / 2]%R 1).
  { right. simpl. unfold INT_MAX. lia. }
  pose proof quarter_table_dx_neg as Hdx.
  set (tbl := [PI / 2; PI / 2; PI / 2]%R) in *.
  set (dx := dheight_dx_spec 1 tbl (1 * PI - PI) (1 * PI - PI) 1) in *.
  set (dy := dheight_dy_spec 1 tbl (1 * PI - PI) (1 * PI - PI) 1).
  assert (Hlen : V3.length (V3.mk (- dx) 1 (- dy)) <> 1%R).
  { intros Hone. apply V3_length_up_eq_1 in Hone. lra. }
  exists (height_spec 1 tbl (1 * PI - PI) (1 * PI - PI) 1), (V3.mk (- dx) 1 (- dy)).
  split; [|split].
  - rewrite getTerrainInfo_eq by assumption. reflexivity.
  - exact Hlen.
  - intros Heq. apply Hlen. rewrite Heq. apply V3_normalize_unit.
    pose proof (V3_length_up_ge_1 (- dx) (- dy)). lra.
Qed.

(** C10.  The normal returned by [getTerrainInfo] (a query returns
    exactly when the table covers its reads) has second component exactly
    [1]; it is therefore not the zero vector, its length is at least [1],
    and normalising it gives a unit vector. *)
Theorem normal_up_component (A : R) (coeffs : list R) (x y : R) (n : Z) :
  (getTerrainInfo A coeffs x y n <> None <-> covers coeffs n)
  /\ forall height norm,
       getTerrainInfo A coeffs x y n = Some (height, norm) ->
       V3.y norm = 1%R
       /\ norm <> V3.mk 0 0 0
       /\ (1 <= V3.length norm)%R
       /\ V3.length (V3.normalize norm) = 1%R.
Proof.
  split; [apply getTerrainInfo_defined|].
  intros height norm Hrun.
  apply getTerrainInfo_Some in Hrun. destruct Hrun as (_ & _ & ->).
  split; [reflexivity|]. split; [|split].
  - intros Hzero. inversion Hzero. lra.
  - apply V3_length_up_ge_1.
  - apply V3_normalize_unit.
    match goal with |- V3.length (V3.mk ?a 1 ?b) <> _ =>
      pose proof (V3_length_up_ge_1 a b) end.
    lra.
Qed.

Lemma normal_up_component_witness :
  exists height norm,
    getTerrainInfo 0.5 (repeat 0%R 1261) 0.5 0.5 35 = Some (height, norm)
    /\ V3.y norm = 1%R.
Proof.
  pose proof (getTerrainInfo_eq 0.5 (repeat 0%R 1261) 0.5 0.5 35
                zero_table_covers_35) as Hrun.
  eexists. eexists. split; [exact Hrun|].
  exact (proj1 (proj2 (normal_up_component 0.5 (repeat 0%R 1261) 0.5 0.5 35)
                  _ _ Hrun)).
Defined.

(** ** Indices read in the phase table *)

Lemma coeff_index_Some (one n two k : Z) :
  coeff_index one n two = Some k -> k = (one * n + two)%Z.
Proof.
  unfold coeff_index, int_mul, int_add. intros Hk.
  bind_inv Hk a Ha.
  apply int_checked_Some in Ha. destruct Ha as [-> _].
  apply int_checked_Some in Hk. destruct Hk as [-> _]. reflexivity.
Qed.

Lemma onInitialization_length (RAND_MAX : Z) (rand : nat -> Z) :
  Z.of_nat (length (snd (onInitialization RAND_MAX rand))) = 1000000%Z.
Proof.
  unfold onInitialization, snd. rewrite length_map, length_seq. lia.
Qed.

(** C5.  In a query of order [n >= 1] every read of the phase table uses
    the index [i * n + j] of some [i, j] in [0 .. n]; such an index is at
    most [n * n + n], a value that is read (at [i = j = n]) and is not below
    [n * n].  The query is therefore defined exactly on the tables of at
    least [n * n + n + 1] entries (with [n * n + n] an [int]); for [n = 35]
    that is 1261 entries, which the table of [onInitialization] supplies. *)
Theorem phase_reads_bound (A : R) (coeffs : list R) (x y : R) (n : Z) :
  (1 <= n)%Z ->
  (forall i j k, (0 <= i <= n)%Z -> (0 <= j <= n)%Z ->
     coeff_index i n j = Some k ->
     k = (i * n + j)%Z /\ (0 <= k <= n * n + n)%Z)
  /\ (forall p, phase coeffs n n n = Some p ->
        (n * n <= n * n + n < Z.of_nat (length coeffs))%Z)
  /\ (getTerrainInfo A coeffs x y n <> None <->
      (n * n + n <= INT_MAX /\ n * n + n < Z.of_nat (length coeffs))%Z)
  /\ (forall RAND_MAX rand, covers (snd (onInitialization RAND_MAX rand)) 35).
Proof.
  intros Hn. split; [|split; [|split]].
  - intros i j k Hi Hj Hk. apply coeff_index_Some in Hk. subst k.
    split; [reflexivity|]. destruct (index_bound n i j Hi Hj). lia.
  - intros p Hp. apply phase_Some in Hp. lia.
  - apply getTerrainInfo_defined_iff. lia.
  - intros RAND_MAX rand. right. rewrite onInitialization_length.
    unfold INT_MAX. lia.
Qed.

Lemma phase_reads_bound_witness :
  (1 <= 35)%Z
  /\ (getTerrainInfo 0.5 (repeat 0%R 1261) 0.5 0.5 35 <> None <->
      (35 * 35 + 35 <= INT_MAX
       /\ 35 * 35 + 35 < Z.of_nat (length (repeat 0%R 1261)))%Z).
Proof.
  assert (H35 : (1 <= 35)%Z) by lia.
  split; [exact H35|].
  apply (phase_reads_bound 0.5 (repeat 0%R 1261) 0.5 0.5 35 H35).
Defined.

(** C5, as stated, fails: at order [35] the read for [i = j = 35] uses the
    index [1260], which is not below [35 * 35 = 1225], and on a table of
    exactly [35 * 35] entries the query reads outside the table. *)
Lemma phase_read_beyond_n_squared :
  coeff_index 35 35 35 = Some 1260%Z
  /\ ~ (1260 < 35 * 35)%Z
  /\ length (repeat 0%R 1225) = Z.to_nat (35 * 35)
  /\ getTerrainInfo 0.5 (repeat 0%R 1225) 0.5 0.5 35 = None.
Proof.
  split; [reflexivity|]. split; [lia|]. split; [apply repeat_length|].
  destruct (getTerrainInfo 0.5 (repeat 0%R 1225) 0.5 0.5 35) as [r|] eqn:Hrun;
    [|reflexivity].
  exfalso.
  assert (Hdef : getTerrainInfo 0.5 (repeat 0%R 1225) 0.5 0.5 35 <> None)
    by (rewrite Hrun; discriminate).
  apply getTerrainInfo_defined_iff in Hdef; [|lia].
  rewrite repeat_length in Hdef. lia.
Qed.

(** ** Filling the vertex list *)

Lemma for_loop_append {X : Type} (body : Z -> list X -> option (list X))
    (g : Z -> list X) :
  forall (fuel : nat) (i : Z) (s : list X),
    (forall j acc, (i <= j < i + Z.of_nat fuel)%Z ->
                   body j acc = Some (acc ++ g j)) ->
    for_loop fuel i body s = Some (s ++ concat_from fuel i g).
Proof.
  induction fuel as [|fuel IH]; intros i s Hbody; simpl.
  - rewrite app_nil_r. reflexivity.
  - rewrite Hbody by lia. simpl.
    rewrite IH by (intros; apply Hbody; lia).
    rewrite app_assoc. reflexivity.
Qed.

Lemma concat_from_ext {X : Type} (g g' : Z -> list X) :
  forall (k : nat) (i : Z),
    (forall j, (i <= j < i + Z.of_nat k)%Z -> g j = g' j) ->
    concat_from k i g = concat_from k i g'.
Proof.
  induction k as [|k IH]; intros i Hg; simpl; [reflexivity|].
  rewrite Hg by lia. rewrite (IH (i + 1)%Z); [reflexivity|].
  intros; apply Hg; lia.
Qed.

Lemma map_concat_from {X Y : Type} (m : X -> Y) (g : Z -> list X) :
  forall (k : nat) (i : Z),
    map m (concat_from k i g) = concat_from k i (fun j => map m (g j)).
Proof.
  induction k as [|k IH]; intros i; simpl; [reflexivity|].
  rewrite map_app, IH. reflexivity.
Qed.

Lemma length_concat_from {X : Type} (g : Z -> list X) (c : nat) :
  forall (k : nat) (i : Z),
    (forall j, (i <= j < i + Z.of_nat k)%Z -> length (g j) = c) ->
    length (concat_from k i g) = (k * c)%nat.
Proof.
  induction k as [|k IH]; intros i Hg; simpl; [reflexivity|].
  rewrite length_app, Hg by lia. rewrite (IH (i + 1)%Z); [reflexivity|].
  intros; apply Hg; lia.
Qed.

(** The element at position [q * c + r] of [k] chunks of length [c]. *)
Lemma nth_error_concat_from {X : Type} (g : Z -> list X) (c : nat) :
  forall (k : nat) (i : Z) (q r : nat),
    (forall j, (i <= j < i + Z.of_nat k)%Z -> length (g j) = c) ->
    (q < k)%nat -> (r < c)%nat ->
    nth_error (concat_from k i g) (q * c + r) = nth_error (g (i + Z.of_nat q)%Z) r.
Proof.
  induction k as [|k IH]; intros i q r Hg Hq Hr; [lia|].
  simpl. destruct q as [|q].
  - simpl. rewrite nth_error_app1 by (rewrite Hg by lia; assumption).
    replace (i + 0)%Z with i by lia. reflexivity.
  - rewrite nth_error_app2 by (rewrite Hg by lia; simpl; lia).
    rewrite Hg by lia.
    replace (S q * c + r - c)%nat with (q * c + r)%nat by (simpl; lia).
    rewrite (IH (i + 1)%Z q r); [| intros; apply Hg; lia | lia | assumption].
    f_equal. f_equal. lia.
Qed.

Lemma GenVertexData_covered (A : R) (coeffs : list R) (u v : R) :
  covers coeffs 35 ->
  GenVertexData A coeffs u v = Some (vertex_spec A coeffs u v).
Proof.
  intros Hcov. unfold GenVertexData.
  rewrite getTerrainInfo_eq by assumption. reflexivity.
Qed.

(** The vertices of [(row, col)] in the words of the specification. *)
Lemma create_vertices_covered (A : R) (coeffs : list R) (N M : Z) :
  covers coeffs 35 ->
  create_vertices A coeffs N M
  = Some (map (fun uv => vertex_spec A coeffs (fst uv) (snd uv)) (grid_points N M)).
Proof.
  intros Hcov. unfold create_vertices, for_lt, grid_points.
  rewrite map_concat_from.
  rewrite (for_loop_append _ (fun row =>
             map (fun uv => vertex_spec A coeffs (fst uv) (snd uv))
                 (concat_from (Z.to_nat (M + 1)) 0
                    (fun col => grid_pair N M row col)))).
  - reflexivity.
  - intros i acc Hi. unfold for_le. rewrite map_concat_from.
    apply for_loop_append. intros j acc' Hj.
    rewrite !GenVertexData_covered by assumption. simpl.
    rewrite <- app_assoc. reflexivity.
Qed.

Lemma length_grid_points (N M : Z) :
  length (grid_points N M) = (Z.to_nat N * (Z.to_nat (M + 1) * 2))%nat.
Proof.
  unfold grid_points.
  apply length_concat_from. intros row _.
  apply length_concat_from. intros col _. reflexivity.
Qed.

(** ** Loops over a [std::vector] *)

(** A loop that reads [l[i]] round after round folds over the elements. *)
Lemma for_loop_read_fold {X S : Type} (l : list X) (step : S -> X -> S)
    (body : Z -> S -> option S) :
  (forall i s v, nth_error l (Z.to_nat i) = Some v -> body i s = Some (step s v)) ->
  forall (rest pre : list X) (s : S),
    l = pre ++ rest ->
    for_loop (length rest) (Z.of_nat (length pre)) body s
    = Some (fold_left step rest s).
Proof.
  intros Hbody. induction rest as [|v rest IH]; intros pre s Hl; simpl.
  - reflexivity.
  - rewrite (Hbody _ s v).
    + simpl. replace (Z.of_nat (length pre) + 1)%Z
        with (Z.of_nat (length (pre ++ [v]))) by (rewrite length_app; simpl; lia).
      apply IH. rewrite <- app_assoc. exact Hl.
    + rewrite Nat2Z.id, Hl, nth_error_app2 by lia.
      rewrite Nat.sub_diag. reflexivity.
Qed.

Lemma list_set_app {X : Type} (pre : list X) (v w : X) (rest : list X) :
  list_set (pre ++ v :: rest) (length pre) w = pre ++ w :: rest.
Proof. induction pre as [|a pre IH]; simpl; [reflexivity | rewrite IH; reflexivity]. Qed.

(** A loop that rewrites [l[i]] round after round maps over the elements. *)
Lemma for_loop_update {X : Type} (upd : X -> X) :
  forall (rest pre : list X),
    for_loop (length rest) (Z.of_nat (length pre))
      (fun i l => v <- nth_error l (Z.to_nat i) ;;
                  Some (list_set l (Z.to_nat i) (upd v)))
      (pre ++ rest)
    = Some (pre ++ map upd rest).
Proof.
  induction rest as [|v rest IH]; intros pre; simpl.
  - reflexivity.
  - rewrite Nat2Z.id, nth_error_app2 by lia.
    rewrite Nat.sub_diag. simpl. rewrite list_set_app.
    replace (Z.of_nat (length pre) + 1)%Z
      with (Z.of_nat (length (pre ++ [upd v]))) by (rewrite length_app; simpl; lia).
    replace (pre ++ upd v :: rest) with ((pre ++ [upd v]) ++ rest)
      by (rewrite <- app_assoc; reflexivity).
    rewrite IH. rewrite <- app_assoc. reflexivity.
Qed.

(** ** The scan for the least and the greatest height *)

Lemma scan_step_fold (t : list VertexData) :
  forall (mn mx : R), (mn <= mx)%R ->
    fold_left scan_step t (mn, mx)
    = (fold_left Rmin (map h t) mn, fold_left Rmax (map h t) mx).
Proof.
  induction t as [|v t IH]; intros mn mx Hle; simpl; [reflexivity|].
  destruct (Rgt_dec (h v) mx) as [Hgt | Hngt].
  - rewrite IH by lra.
    rewrite (Rmin_left mn (h v)) by lra. rewrite (Rmax_right mx (h v)) by lra.
    reflexivity.
  - destruct (Rlt_dec (h v) mn) as [Hlt | Hnlt].
    + rewrite IH by lra.
      rewrite (Rmin_right mn (h v)) by lra. rewrite (Rmax_left mx (h v)) by lra.
      reflexivity.
    + rewrite IH by lra.
      rewrite (Rmin_left mn (h v)) by lra. rewrite (Rmax_left mx (h v)) by lra.
      reflexivity.
Qed.

Lemma create_min_max_eq (vtxData : list VertexData) :
  vtxData <> [] -> (Z.of_nat (length vtxData) <= INT_MAX)%Z ->
  create_min_max vtxData
  = Some (Rlist_min (map h vtxData), Rlist_max (map h vtxData)).
Proof.
  intros Hne Hsize. destruct vtxData as [|v0 t]; [contradiction|].
  unfold create_min_max. cbn [nth_error bind].
  rewrite int_checked_in by int_range. cbn [bind].
  unfold for_from_lt.
  replace (Z.to_nat (Z.of_nat (length (v0 :: t)) - 1)) with (length t)
    by (simpl length; lia).
  change 1%Z with (Z.of_nat (length [v0])).
  rewrite (for_loop_read_fold (v0 :: t) scan_step _) with (rest := t) (pre := [v0]).
  - rewrite scan_step_fold by lra. reflexivity.
  - intros i [mn mx] v Hv. rewrite Hv. simpl.
    destruct (Rgt_dec (h v) mx); [reflexivity|].
    destruct (Rlt_dec (h v) mn); reflexivity.
  - reflexivity.
Qed.

Lemma create_min_max_empty : create_min_max [] = None.
Proof. reflexivity. Qed.

(** ** The loop that rescales the heights *)

Lemma create_normalize_eq (min max : R) (vtxData : list VertexData) :
  (Z.of_nat (length vtxData) <= INT_MAX)%Z ->
  create_normalize min max vtxData = Some (map (rescale min max) vtxData).
Proof.
  intros Hsize. unfold create_normalize.
  rewrite int_checked_in by int_range. simpl bind.
  unfold for_lt. rewrite Nat2Z.id.
  apply (for_loop_update (rescale min max) vtxData []).
Qed.

(** ** [create] on a mesh with at least one strip *)

Lemma to_unsigned_small (z : Z) : (0 <= z <= INT_MAX)%Z -> to_unsigned z = z.
Proof.
  intros Hz. unfold to_unsigned, UINT_MOD. unfold INT_MAX in Hz.
  apply Z.mod_small. lia.
Qed.

Lemma map_h_vertex_spec (A : R) (coeffs : list R) (N M : Z) :
  map h (map (fun uv => vertex_spec A coeffs (fst uv) (snd uv)) (grid_points N M))
  = raw_heights A coeffs N M.
Proof. rewrite map_map. reflexivity. Qed.

Lemma grid_size (N M : Z) :
  (0 <= N)%Z -> (0 <= M)%Z ->
  Z.of_nat (length (grid_points N M)) = (N * ((M + 1) * 2))%Z.
Proof. intros HN HM. rewrite length_grid_points. lia. Qed.

(** The result of [create] for [N >= 1] strips and [M >= 0] on a covering
    table, when the number of vertices is an [int]. *)
Lemma create_eq (A : R) (coeffs : list R) (N M : Z) :
  (1 <= N)%Z -> (0 <= M)%Z -> (N * ((M + 1) * 2) <= INT_MAX)%Z ->
  covers coeffs 35 ->
  create A coeffs N M
  = Some {| nVtxPerStrip := (M + 1) * 2;
            nStrips := N;
            vbo_data :=
              map (rescale (Rlist_min (raw_heights A coeffs N M))
                           (Rlist_max (raw_heights A coeffs N M)))
                  (map (fun uv => vertex_spec A coeffs (fst uv) (snd uv))
                       (grid_points N M)) |}.
Proof.
  intros HN HM Hmax Hcov.
  assert (Hsize := grid_size N M ltac:(lia) HM).
  unfold create, int_add, int_mul.
  rewrite int_checked_in by (unfold INT_MIN; nia). simpl bind.
  rewrite int_checked_in by (unfold INT_MIN; nia). simpl bind.
  rewrite create_vertices_covered by assumption. simpl bind.
  set (vs := map (fun uv => vertex_spec A coeffs (fst uv) (snd uv)) (grid_points N M)).
  assert (Hlen : Z.of_nat (length vs) = (N * ((M + 1) * 2))%Z).
  { unfold vs. rewrite length_map. exact Hsize. }
  rewrite create_min_max_eq.
  - simpl bind. unfold vs at 1 2. rewrite map_h_vertex_spec.
    rewrite create_normalize_eq by lia. simpl bind.
    rewrite (to_unsigned_small ((M + 1) * 2)) by nia.
    rewrite (to_unsigned_small N) by nia.
    rewrite (to_unsigned_small ((M + 1) * 2 * N)) by nia.
    unfold glBufferData. rewrite length_map.
    destruct (Z.leb_spec ((M + 1) * 2 * N) (Z.of_nat (length vs))) as [_|Hlt]; [|lia].
    simpl bind. f_equal. f_equal.
    apply firstn_all2. rewrite length_map. lia.
  - intros Hnil. rewrite Hnil in Hlen. simpl in Hlen. nia.
  - lia.
Qed.

(** ** When [create] is defined *)

Lemma for_lt_fail {S : Type} (n j : Z) (body : Z -> S -> option S) (s : S) :
  (0 <= j < n)%Z -> (forall acc, body j acc = None) -> for_lt n body s = None.
Proof.
  intros Hj Hfail. unfold for_lt. apply (for_loop_fail body _ 0%Z j); [lia | assumption].
Qed.

Lemma covers_dec (coeffs : list R) (n : Z) : {covers coeffs n} + {~ covers coeffs n}.
Proof.
  unfold covers.
  destruct (Z_lt_le_dec n 0) as [Hneg | Hn]; [left; left; assumption|].
  destruct (Z_le_gt_dec (n * n + n) INT_MAX) as [Hmax | Hmax];
    [|right; intros [H | [H _]]; lia].
  destruct (Z_lt_le_dec (n * n + n) (Z.of_nat (length coeffs))) as [Hlen | Hlen];
    [left; right; split; assumption | right; intros [H | [_ H]]; lia].
Qed.

(** Without a covering table the first vertex already fails. *)
Lemma create_vertices_uncovered (A : R) (coeffs : list R) (N M : Z) :
  (0 < N)%Z -> (0 <= M)%Z -> ~ covers coeffs 35 ->
  create_vertices A coeffs N M = None.
Proof.
  intros HN HM Hncov. unfold create_vertices.
  apply (for_lt_fail N 0); [lia|]. intros acc.
  apply (for_le_fail M 0); [lia|]. intros acc'.
  unfold GenVertexData.
  destruct (getTerrainInfo A coeffs (IZR 0 / IZR M) (IZR 0 / IZR N) 35)
    as [r|] eqn:Hrun; [|reflexivity].
  exfalso. apply Hncov.
  apply (getTerrainInfo_defined A coeffs (IZR 0 / IZR M) (IZR 0 / IZR N) 35).
  rewrite Hrun. discriminate.
Qed.

(** A run of [create] that returns had a covering table and a number of
    vertices inside the [int] range. *)
Lemma create_Some (A : R) (coeffs : list R) (N M : Z) (s : ParamSurface) :
  (0 < N)%Z -> (0 <= M)%Z ->
  create A coeffs N M = Some s ->
  covers coeffs 35 /\ (N * ((M + 1) * 2) <= INT_MAX)%Z.
Proof.
  intros HN HM Hrun. unfold create in Hrun.
  bind_inv Hrun m1 Hm1.
  bind_inv Hrun m2 Hm2.
  bind_inv Hrun vs Hvs.
  destruct (covers_dec coeffs 35) as [Hcov | Hncov];
    [|rewrite create_vertices_uncovered in Hvs by assumption; discriminate].
  split; [assumption|].
  rewrite create_vertices_covered in Hvs by assumption.
  inversion Hvs as [Hvs']. clear Hvs.
  apply bind_Some in Hrun. destruct Hrun as (mm & Hmm & _).
  unfold create_min_max in Hmm.
  bind_inv Hmm v0 Hv0.
  apply bind_Some in Hmm. destruct Hmm as (size & Hsize & _).
  apply int_checked_Some in Hsize. destruct Hsize as [_ Hsize].
  rewrite <- Hvs', length_map, grid_size in Hsize by lia. lia.
Qed.

Lemma create_defined (A : R) (coeffs : list R) (N M : Z) :
  (0 < N)%Z -> (0 <= M)%Z ->
  create A coeffs N M <> None <->
  covers coeffs 35 /\ (N * ((M + 1) * 2) <= INT_MAX)%Z.
Proof.
  intros HN HM. split.
  - intros Hdef. destruct (create A coeffs N M) as [s|] eqn:Hrun; [|contradiction].
    apply (create_Some A coeffs N M s); assumption.
  - intros [Hcov Hmax]. rewrite create_eq by (lia || assumption). discriminate.
Qed.

(** ** Least and greatest elements *)

Lemma fold_left_Rmin_le (t : list R) :
  forall a, (fold_left Rmin t a <= a)%R
            /\ (forall r, In r t -> (fold_left Rmin t a <= r)%R).
Proof.
  induction t as [|b t IH]; intros a; simpl.
  - split; [lra | contradiction].
  - destruct (IH (Rmin a b)) as [H1 H2]. split.
    + pose proof (Rmin_l a b). lra.
    + intros r [<- | Hin]; [|auto].
      pose proof (Rmin_r a b). lra.
Qed.

Lemma fold_left_Rmax_ge (t : list R) :
  forall a, (a <= fold_left Rmax t a)%R
            /\ (forall r, In r t -> (r <= fold_left Rmax t a)%R).
Proof.
  induction t as [|b t IH]; intros a; simpl.
  - split; [lra | contradiction].
  - destruct (IH (Rmax a b)) as [H1 H2]. split.
    + pose proof (Rmax_l a b). lra.
    + intros r [<- | Hin]; [|auto].
      pose proof (Rmax_r a b). lra.
Qed.

Lemma Rlist_min_least (l : list R) (r : R) : In r l -> (Rlist_min l <= r)%R.
Proof.
  destruct l as [|a t]; [contradiction|]. simpl.
  destruct (fold_left_Rmin_le t a) as [H1 H2].
  intros [<- | Hin]; auto.
Qed.

Lemma Rlist_max_greatest (l : list R) (r : R) : In r l -> (r <= Rlist_max l)%R.
Proof.
  destruct l as [|a t]; [contradiction|]. simpl.
  destruct (fold_left_Rmax_ge t a) as [H1 H2].
  intros [<- | Hin]; auto.
Qed.

Lemma fold_left_Rmin_In (t : list R) :
  forall a, In (fold_left Rmin t a) (a :: t).
Proof.
  induction t as [|b t IH]; intros a; simpl; [left; reflexivity|].
  destruct (IH (Rmin a b)) as [Heq | Hin].
  - unfold Rmin in Heq at 1. destruct (Rle_dec a b); [left | right; left]; exact Heq.
  - right; right; exact Hin.
Qed.

Lemma fold_left_Rmax_In (t : list R) :
  forall a, In (fold_left Rmax t a) (a :: t).
Proof.
  induction t as [|b t IH]; intros a; simpl; [left; reflexivity|].
  destruct (IH (Rmax a b)) as [Heq | Hin].
  - unfold Rmax in Heq at 1. destruct (Rle_dec a b); [right; left | left]; exact Heq.
  - right; right; exact Hin.
Qed.

(** A non-decreasing map commutes with the least and the greatest element. *)
Lemma fold_left_Rmin_mono (g : R -> R) :
  (forall a b, (a <= b)%R -> (g a <= g b)%R) ->
  forall t a, fold_left Rmin (map g t) (g a) = g (fold_left Rmin t a).
Proof.
  intros Hmono. induction t as [|b t IH]; intros a; simpl; [reflexivity|].
  rewrite <- IH. f_equal.
  destruct (Rle_dec a b) as [Hab | Hab].
  - rewrite (Rmin_left a b) by assumption. apply Rmin_left. auto.
  - rewrite (Rmin_right a b) by lra. apply Rmin_right. apply Hmono. lra.
Qed.

Lemma fold_left_Rmax_mono (g : R -> R) :
  (forall a b, (a <= b)%R -> (g a <= g b)%R) ->
  forall t a, fold_left Rmax (map g t) (g a) = g (fold_left Rmax t a).
Proof.
  intros Hmono. induction t as [|b t IH]; intros a; simpl; [reflexivity|].
  rewrite <- IH. f_equal.
  destruct (Rle_dec a b) as [Hab | Hab].
  - rewrite (Rmax_right a b) by assumption. apply Rmax_right. auto.
  - rewrite (Rmax_left a b) by lra. apply Rmax_left. apply Hmono. lra.
Qed.

Lemma rescale_mono (mn mx a b : R) :
  (mn < mx)%R -> (a <= b)%R -> ((a - mn) / (mx - mn) <= (b - mn) / (mx - mn))%R.
Proof.
  intros Hlt Hab. unfold Rdiv. apply Rmult_le_compat_r.
  - apply Rlt_le, Rinv_0_lt_compat. lra.
  - lra.
Qed.

(** Rescaling a non-empty list by its own least and greatest elements
    gives least element [0] and greatest element [1]. *)
Lemma rescaled_min_max (l : list R) :
  l <> [] -> (Rlist_min l < Rlist_max l)%R ->
  Rlist_min (map (fun r => (r - Rlist_min l) / (Rlist_max l - Rlist_min l))%R l) = 0%R
  /\ Rlist_max (map (fun r => (r - Rlist_min l) / (Rlist_max l - Rlist_min l))%R l) = 1%R.
Proof.
  intros Hne Hlt.
  set (mn := Rlist_min l) in *. set (mx := Rlist_max l) in *.
  destruct l as [|a t]; [contradiction|].
  simpl map. unfold Rlist_min at 1, Rlist_max at 1.
  rewrite (fold_left_Rmin_mono (fun r => (r - mn) / (mx - mn))%R)
    by (intros; apply rescale_mono; assumption).
  rewrite (fold_left_Rmax_mono (fun r => (r - mn) / (mx - mn))%R)
    by (intros; apply rescale_mono; assumption).
  change (fold_left Rmin t a) with mn. change (fold_left Rmax t a) with mx.
  split; field; lra.
Qed.

(** ** The rescaling pass of [create] *)

Lemma map_h_rescale (mn mx : R) (vs : list VertexData) :
  map h (map (rescale mn mx) vs) = map (fun r => (r - mn) / (mx - mn))%R (map h vs).
Proof. rewrite !map_map. reflexivity. Qed.

(** C3.  For [N, M > 0] whose raw heights are not all equal, a run of
    [create] (it returns exactly when the phase table covers the reads and
    the number of vertices is an [int]) leaves in every vertex the height
    [(height - min) / (max - min)], where [min] and [max] are the least and
    the greatest raw height, and over all vertices the least height
    attribute is [0] and the greatest is [1]. *)
Theorem create_heights_rescaled (A : R) (coeffs : list R) (N M : Z) :
  (0 < N)%Z -> (0 < M)%Z ->
  (Rlist_min (raw_heights A coeffs N M) < Rlist_max (raw_heights A coeffs N M))%R ->
  (create A coeffs N M <> None <->
   covers coeffs 35 /\ (N * ((M + 1) * 2) <= INT_MAX)%Z)
  /\ forall s,
       create A coeffs N M = Some s ->
       map h (vbo_data s)
       = map (fun r => (r - Rlist_min (raw_heights A coeffs N M))
                       / (Rlist_max (raw_heights A coeffs N M)
                          - Rlist_min (raw_heights A coeffs N M)))%R
             (raw_heights A coeffs N M)
       /\ Rlist_min (map h (vbo_data s)) = 0%R
       /\ Rlist_max (map h (vbo_data s)) = 1%R.
Proof.
  intros HN HM Hlt. split; [apply create_defined; lia|].
  intros s Hrun.
  destruct (create_Some A coeffs N M s HN ltac:(lia) Hrun) as [Hcov Hmax].
  rewrite create_eq in Hrun by (lia || assumption).
  inversion Hrun as [Hs]. clear Hrun Hs.
  cbn [vbo_data]. rewrite map_h_rescale, map_h_vertex_spec.
  split; [reflexivity|].
  apply rescaled_min_max; [|assumption].
  intros Hnil.
  assert (Hlen : length (raw_heights A coeffs N M) = length (grid_points N M))
    by (unfold raw_heights; apply length_map).
  rewrite Hnil, length_grid_points in Hlen. simpl in Hlen. nia.
Qed.

(** ** A field that is not flat *)

Lemma sum_from_le (g g' : Z -> R) :
  forall (k : nat) (i : Z),
    (forall j, (i <= j < i + Z.of_nat k)%Z -> (g j <= g' j)%R) ->
    (sum_from k i g <= sum_from k i g')%R.
Proof.
  induction k as [|k IH]; intros i Hg; simpl; [lra|].
  assert (g i <= g' i)%R by (apply Hg; lia).
  assert (sum_from k (i + 1) g <= sum_from k (i + 1) g')%R
    by (apply IH; intros; apply Hg; lia).
  lra.
Qed.

Lemma sum_from_lt (g g' : Z -> R) :
  forall (k : nat) (i j0 : Z),
    (forall j, (i <= j < i + Z.of_nat k)%Z -> (g j <= g' j)%R) ->
    (i <= j0 < i + Z.of_nat k)%Z -> (g j0 < g' j0)%R ->
    (sum_from k i g < sum_from k i g')%R.
Proof.
  induction k as [|k IH]; intros i j0 Hg Hj0 Hlt; [lia|]. simpl.
  assert (Hi : (g i <= g' i)%R) by (apply Hg; lia).
  destruct (Z.eq_dec i j0) as [->|Hne].
  - assert (sum_from k (j0 + 1) g <= sum_from k (j0 + 1) g')%R
      by (apply sum_from_le; intros; apply Hg; lia).
    lra.
  - assert (sum_from k (i + 1) g < sum_from k (i + 1) g')%R.
    { apply (IH (i + 1)%Z j0); [intros; apply Hg; lia | lia | assumption]. }
    lra.
Qed.

Lemma sum_upto_le (n : Z) (g g' : Z -> R) :
  (forall j, (0 <= j <= n)%Z -> (g j <= g' j)%R) ->
  (sum_upto n g <= sum_upto n g')%R.
Proof. intros Hg. apply sum_from_le. intros; apply Hg; lia. Qed.

Lemma sum_upto_lt (n j0 : Z) (g g' : Z -> R) :
  (forall j, (0 <= j <= n)%Z -> (g j <= g' j)%R) ->
  (0 <= j0 <= n)%Z -> (g j0 < g' j0)%R ->
  (sum_upto n g < sum_upto n g')%R.
Proof.
  intros Hg Hj0 Hlt. apply (sum_from_lt g g' _ 0%Z j0); [|lia|assumption].
  intros; apply Hg; lia.
Qed.

Lemma E_spec_nonneg (A : R) (i j : Z) : (0 <= A)%R -> (0 <= E_spec A i j)%R.
Proof.
  intros HA. unfold E_spec.
  destruct ((i =? 0) && (j =? 0))%Z eqn:Hij; [lra|].
  assert (Hpos : (0 < IZR i * IZR i + IZR j * IZR j)%R).
  { apply andb_false_iff in Hij. destruct Hij as [Hi | Hj].
    - apply Z.eqb_neq in Hi. apply not_0_IZR in Hi. nra.
    - apply Z.eqb_neq in Hj. apply not_0_IZR in Hj. nra. }
  apply sqrt_lt_R0 in Hpos.
  apply Rlt_le in Hpos. unfold Rdiv.
  apply Rmult_le_pos; [assumption|].
  destruct Hpos as [Hlt | Heq];
    [apply Rlt_le, Rinv_0_lt_compat; assumption | rewrite <- Heq, Rinv_0; lra].
Qed.

Lemma coeff_repeat_0 (k : nat) (m : Z) : coeff (repeat 0%R k) m = 0%R.
Proof. unfold coeff. apply nth_repeat. Qed.

(** With all phases [0] the height at the angular point [(-PI, -PI)] is
    below the height at [(0, 0)]. *)
Lemma zero_phase_height_lt (k : nat) (n : Z) :
  (1 <= n)%Z ->
  (height_spec 1 (repeat 0%R k) (- PI) (- PI) n
   < height_spec 1 (repeat 0%R k) 0 0 n)%R.
Proof.
  intros Hn. unfold height_spec, harmonic_arg.
  assert (Hterm : forall i j x' y',
            (E_spec 1 i j * cos (IZR i * x' + IZR j * y' + coeff (repeat 0%R k) (i * n + j))
             <= E_spec 1 i j
                * cos (IZR i * 0 + IZR j * 0 + coeff (repeat 0%R k) (i * n + j)))%R).
  { intros i j x' y'. rewrite coeff_repeat_0.
    replace (IZR i * 0 + IZR j * 0 + 0)%R with 0%R by ring. rewrite cos_0.
    pose proof (E_spec_nonneg 1 i j ltac:(lra)) as HE.
    destruct (COS_bound (IZR i * x' + IZR j * y' + 0)) as [_ Hcos].
    nra. }
  apply (sum_upto_lt n 1).
  - intros i Hi. apply sum_upto_le. intros j Hj. apply Hterm.
  - lia.
  - apply (sum_upto_lt n 0).
    + intros j Hj. apply Hterm.
    + lia.
    + rewrite coeff_repeat_0.
      replace (1 * - PI + 0 * - PI + 0)%R with (- PI)%R by ring.
      replace (1 * 0 + 0 * 0 + 0)%R with 0%R by ring.
      rewrite cos_neg, cos_PI, cos_0.
      unfold E_spec. simpl.
      replace (1 * 1 + 0 * 0)%R with 1%R by ring. rewrite sqrt_1. lra.
Qed.

Lemma raw_heights_1_1 (A : R) (coeffs : list R) :
  raw_heights A coeffs 1 1
  = [ raw_height A coeffs (0 / 1) (0 / 1); raw_height A coeffs (0 / 1) (1 / 1);
      raw_height A coeffs (1 / 1) (0 / 1); raw_height A coeffs (1 / 1) (1 / 1) ]%R.
Proof. reflexivity. Qed.

Lemma zero_phase_not_flat :
  (Rlist_min (raw_heights 1 (repeat 0%R 1261) 1 1)
   < Rlist_max (raw_heights 1 (repeat 0%R 1261) 1 1))%R.
Proof.
  rewrite raw_heights_1_1.
  set (lo := raw_height 1 (repeat 0%R 1261) (0 / 1) (0 / 1)).
  set (hi := raw_height 1 (repeat 0%R 1261) (1 / 1) (1 / 1)).
  assert (Hlt : (lo < hi)%R).
  { unfold lo, hi, raw_height.
    replace (0 / 1 * PI - PI)%R with (- PI)%R by field.
    replace (1 / 1 * PI - PI)%R with 0%R by field.
    apply zero_phase_height_lt. lia. }
  match goal with |- (Rlist_min ?l < Rlist_max ?l)%R =>
    assert (Hmin : (Rlist_min l <= lo)%R)
      by (apply Rlist_min_least; left; reflexivity);
    assert (Hmax : (hi <= Rlist_max l)%R)
      by (apply Rlist_max_greatest; right; right; right; left; reflexivity)
  end.
  lra.
Qed.

Lemma create_heights_rescaled_witness :
  ((0 < 1)%Z
   /\ (Rlist_min (raw_heights 1 (repeat 0%R 1261) 1 1)
       < Rlist_max (raw_heights 1 (repeat 0%R 1261) 1 1))%R)
  /\ exists s,
       create 1 (repeat 0%R 1261) 1 1 = Some s
       /\ Rlist_min (map h (vbo_data s)) = 0%R
       /\ Rlist_max (map h (vbo_data s)) = 1%R.
Proof.
  assert (HN : (0 < 1)%Z) by lia.
  assert (Hmax : (1 * ((1 + 1) * 2) <= INT_MAX)%Z) by (unfold INT_MAX; lia).
  pose proof zero_table_covers_35 as Hcov.
  split; [split; [exact HN | exact zero_phase_not_flat]|].
  pose proof (create_eq 1 (repeat 0%R 1261) 1 1 ltac:(lia) ltac:(lia) Hmax Hcov)
    as Hrun.
  eexists. split; [exact Hrun|].
  exact (proj2 (proj2 (create_heights_rescaled 1 (repeat 0%R 1261) 1 1 HN HN
                         zero_phase_not_flat) _ Hrun)).
Defined.

(** ** The layout of the mesh and the strips drawn *)

Lemma nth_error_grid_points (N M row col : Z) (r : nat) :
  (0 <= row < N)%Z -> (0 <= col <= M)%Z -> (r < 2)%nat ->
  nth_error (grid_points N M) (Z.to_nat (2 * (row * (M + 1) + col)) + r)
  = nth_error (grid_pair N M row col) r.
Proof.
  intros Hrow Hcol Hr. unfold grid_points.
  replace (Z.to_nat (2 * (row * (M + 1) + col)) + r)%nat
    with (Z.to_nat row * (Z.to_nat (M + 1) * 2) + (Z.to_nat col * 2 + r))%nat by nia.
  rewrite (nth_error_concat_from _ (Z.to_nat (M + 1) * 2)).
  - rewrite (nth_error_concat_from _ 2).
    + rewrite !Z.add_0_l, !Z2Nat.id by lia. reflexivity.
    + intros j _. reflexivity.
    + lia.
    + assumption.
  - intros j _. apply length_concat_from. intros j' _. reflexivity.
  - lia.
  - nia.
Qed.

Lemma shifted_range (a : nat) :
  forall (n s : nat),
    map (fun j => (Z.of_nat a + Z.of_nat j)%Z) (seq s n) = map Z.of_nat (seq (a + s) n).
Proof.
  induction n as [|n IH]; intros s; simpl; [reflexivity|].
  f_equal; [lia|]. rewrite IH. rewrite Nat.add_succ_r. reflexivity.
Qed.

(** [k] strips of [c] vertices each, drawn from the offsets [i * c],
    enumerate the indices [0 .. k * c - 1] once each. *)
Lemma strips_partition (c : Z) :
  (0 <= c)%Z ->
  forall (k : nat),
    flat_map strip_range (map (fun i => (Z.of_nat i * c, c)%Z) (seq 0 k))
    = map Z.of_nat (seq 0 (k * Z.to_nat c)).
Proof.
  intros Hc. induction k as [|k IH]; [reflexivity|].
  rewrite seq_S, map_app, flat_map_app, IH. simpl.
  rewrite app_nil_r.
  replace (Z.to_nat c + k * Z.to_nat c)%nat with (k * Z.to_nat c + Z.to_nat c)%nat by lia.
  rewrite seq_app, map_app. f_equal.
  unfold strip_range. simpl fst. simpl snd.
  replace (Z.of_nat k * c)%Z with (Z.of_nat (k * Z.to_nat c)) by nia.
  rewrite shifted_range. rewrite Nat.add_0_r. reflexivity.
Qed.

Lemma Draw_in_range (s : ParamSurface) :
  (0 <= nStrips s)%Z -> (0 <= nVtxPerStrip s)%Z ->
  (nStrips s * nVtxPerStrip s <= INT_MAX)%Z ->
  Draw s = map (fun i => (Z.of_nat i * nVtxPerStrip s, nVtxPerStrip s)%Z)
               (seq 0 (Z.to_nat (nStrips s))).
Proof.
  intros Hs Hv Hmax. unfold Draw. apply map_ext_in.
  intros i Hi. apply in_seq in Hi.
  rewrite to_unsigned_small by nia. reflexivity.
Qed.

(** C4.  For [N, M > 0] a run of [create] (it returns exactly when the
    phase table covers the reads and the number of vertices is an [int])
    produces exactly [N * (M + 1) * 2] vertices; the two vertices of
    [(row, col)], at the positions [2 * (row * (M + 1) + col)] and the next
    one, carry the position and the normal of the samples at
    [(col / M, row / N)] and [(col / M, (row + 1) / N)]; [Draw] issues [N]
    strips of [(M + 1) * 2] vertices from the offsets [i * (M + 1) * 2], [i]
    in [0 .. N - 1], and their ranges, one after another, enumerate the
    indices of the vertex buffer once each. *)
Theorem create_mesh_layout (A : R) (coeffs : list R) (N M : Z) :
  (0 < N)%Z -> (0 < M)%Z ->
  (create A coeffs N M <> None <->
   covers coeffs 35 /\ (N * ((M + 1) * 2) <= INT_MAX)%Z)
  /\ forall s,
       create A coeffs N M = Some s ->
       Z.of_nat (length (vbo_data s)) = (N * (M + 1) * 2)%Z
       /\ (forall row col, (0 <= row < N)%Z -> (0 <= col <= M)%Z ->
             exists v1 v2 g1 g2,
               nth_error (vbo_data s) (Z.to_nat (2 * (row * (M + 1) + col)))
               = Some v1
               /\ nth_error (vbo_data s) (Z.to_nat (2 * (row * (M + 1) + col)) + 1)
                  = Some v2
               /\ GenVertexData A coeffs (IZR col / IZR M) (IZR row / IZR N)
                  = Some g1
               /\ GenVertexData A coeffs (IZR col / IZR M) (IZR (row + 1) / IZR N)
                  = Some g2
               /\ position v1 = position g1 /\ normal v1 = normal g1
               /\ position v2 = position g2 /\ normal v2 = normal g2)
       /\ Draw s = map (fun i => (Z.of_nat i * ((M + 1) * 2), (M + 1) * 2)%Z)
                       (seq 0 (Z.to_nat N))
       /\ flat_map strip_range (Draw s)
          = map Z.of_nat (seq 0 (length (vbo_data s))).
Proof.
  intros HN HM. split; [apply create_defined; lia|].
  intros s Hrun.
  destruct (create_Some A coeffs N M s HN ltac:(lia) Hrun) as [Hcov Hmax].
  rewrite create_eq in Hrun by (lia || assumption).
  inversion Hrun as [Hs]. clear Hrun Hs.
  assert (Hlen : forall mn mx,
            length (map (rescale mn mx)
                      (map (fun uv => vertex_spec A coeffs (fst uv) (snd uv))
                         (grid_points N M)))
            = (Z.to_nat N * Z.to_nat ((M + 1) * 2))%nat).
  { intros mn mx. rewrite !length_map, length_grid_points. lia. }
  cbn [vbo_data]. split; [rewrite Hlen; lia|]. split; [|split].
  - intros row col Hrow Hcol.
    pose proof (nth_error_grid_points N M row col 0 Hrow Hcol ltac:(lia)) as H0.
    pose proof (nth_error_grid_points N M row col 1 Hrow Hcol ltac:(lia)) as H1.
    rewrite Nat.add_0_r in H0. unfold grid_pair in H0, H1.
    cbn [nth_error] in H0, H1.
    do 4 eexists.
    rewrite !nth_error_map, H0, H1. cbn [option_map fst snd].
    rewrite !GenVertexData_covered by assumption.
    repeat split; reflexivity.
  - rewrite Draw_in_range; cbn [nStrips nVtxPerStrip]; (reflexivity || lia).
  - rewrite Draw_in_range by (cbn [nStrips nVtxPerStrip]; lia).
    cbn [nStrips nVtxPerStrip].
    rewrite strips_partition by lia. rewrite Hlen. reflexivity.
Qed.

Lemma create_mesh_layout_witness :
  ((0 < 2)%Z /\ (0 < 3)%Z)
  /\ exists s,
       create 0.5 (repeat 0%R 1261) 2 3 = Some s
       /\ Z.of_nat (length (vbo_data s)) = 16%Z
       /\ Draw s = [(0, 8); (8, 8)]%Z.
Proof.
  assert (HN : (0 < 2)%Z) by lia.
  assert (HM : (0 < 3)%Z) by lia.
  assert (Hmax : (2 * ((3 + 1) * 2) <= INT_MAX)%Z) by (unfold INT_MAX; lia).
  pose proof zero_table_covers_35 as Hcov.
  split; [split; assumption|].
  pose proof (create_eq 0.5 (repeat 0%R 1261) 2 3 ltac:(lia) ltac:(lia) Hmax Hcov)
    as Hrun.
  destruct (proj2 (create_mesh_layout 0.5 (repeat 0%R 1261) 2 3 HN HM) _ Hrun)
    as (Hlen & _ & Hdraw & _).
  eexists. split; [exact Hrun|]. split; [exact Hlen | exact Hdraw].
Defined.

(** ** Degenerate meshes *)

(** C6.  [create] with [N = 0] reads [vtxData[0]] in an empty vertex list,
    whatever [M] is: the run is undefined instead of giving an empty mesh. *)
Theorem create_no_strip_undefined (A : R) (coeffs : list R) (M : Z) :
  create A coeffs 0 M = None.
Proof.
  unfold create.
  destruct (int_add M 1) as [m1|]; [|reflexivity]. cbn [bind].
  destruct (int_mul m1 2) as [m2|]; reflexivity.
Qed.

(** With [M = 0] and at least one strip [create] is defined and gives the
    two vertices of each strip. *)
Lemma create_no_column (A : R) (coeffs : list R) (N : Z) :
  (1 <= N)%Z -> (N * 2 <= INT_MAX)%Z -> covers coeffs 35 ->
  exists s, create A coeffs N 0 = Some s
            /\ Z.of_nat (length (vbo_data s)) = (N * 2)%Z.
Proof.
  intros HN Hmax Hcov. eexists.
  split; [apply create_eq; (lia || assumption)|].
  cbn [vbo_data]. rewrite !length_map, length_grid_points. lia.
Qed.

(** The program itself: after [onInitialization], [Terrain()] builds 200
    strips of 402 vertices. *)
Lemma Terrain_defined (RAND_MAX : Z) (rand : nat -> Z) :
  exists s,
    Terrain (fst (onInitialization RAND_MAX rand))
            (snd (onInitialization RAND_MAX rand)) = Some s
    /\ nStrips s = 200%Z /\ nVtxPerStrip s = 402%Z
    /\ Z.of_nat (length (vbo_data s)) = 80400%Z.
Proof.
  eexists. split.
  - unfold Terrain, tessellationLevel. apply create_eq.
    + lia.
    + lia.
    + unfold INT_MAX. lia.
    + right. rewrite onInitialization_length. unfold INT_MAX. lia.
  - cbn [nStrips nVtxPerStrip vbo_data].
    rewrite !length_map, length_grid_points. repeat split; lia.
Qed.

(** The read that fails, in isolation. *)
Lemma create_vertices_no_strip (A : R) (coeffs : list R) (M : Z) :
  create_vertices A coeffs 0 M = Some [] /\ create_min_max [] = None.
Proof. split; reflexivity. Qed.

(** ** Dual numbers *)

Lemma tracks_mul (F G : R -> R) (t : R) (a b : Dnum R) :
  tracks F t a -> tracks G t b -> tracks (F * G)%F t (Dnum_mul a b).
Proof.
  intros [Ha Da] [Hb Db]. split.
  - simpl. unfold mult_fct. rewrite Ha, Hb. reflexivity.
  - simpl. rewrite Ha, Hb.
    replace (F t * d b + d a * G t)%R with (d a * G t + F t * d b)%R by ring.
    apply derivable_pt_lim_mult; assumption.
Qed.

Lemma tracks_div (F G : R -> R) (t : R) (a b : Dnum R) :
  G t <> 0%R -> tracks F t a -> tracks G t b -> tracks (F / G)%F t (Dnum_div a b).
Proof.
  intros Hne [Ha Da] [Hb Db]. split.
  - simpl. unfold div_fct. rewrite Ha, Hb. reflexivity.
  - simpl. rewrite Ha, Hb.
    replace ((G t * d a - d b * F t) / G t / G t)%R
      with ((d a * G t - d b * F t) / Rsqr (G t))%R
      by (unfold Rsqr; field; assumption).
    apply derivable_pt_lim_div; assumption.
Qed.

Lemma tracks_Sin (G : R -> R) (t : R) (g : Dnum R) :
  tracks G t g -> tracks (fun s => sin (G s)) t (Sin g).
Proof.
  intros [Hg Dg]. split.
  - simpl. rewrite Hg. reflexivity.
  - simpl. rewrite Hg.
    apply (derivable_pt_lim_comp G sin); [assumption | apply derivable_pt_lim_sin].
Qed.

Lemma tracks_Cos (G : R -> R) (t : R) (g : Dnum R) :
  tracks G t g -> tracks (fun s => cos (G s)) t (Cos g).
Proof.
  intros [Hg Dg]. split.
  - simpl. rewrite Hg. reflexivity.
  - simpl. rewrite Hg.
    apply (derivable_pt_lim_comp G cos); [assumption | apply derivable_pt_lim_cos].
Qed.

Lemma tracks_Exp (G : R -> R) (t : R) (g : Dnum R) :
  tracks G t g -> tracks (fun s => exp (G s)) t (Exp g).
Proof.
  intros [Hg Dg]. split.
  - simpl. rewrite Hg. reflexivity.
  - simpl. rewrite Hg.
    apply (derivable_pt_lim_comp G exp); [assumption | apply derivable_pt_lim_exp].
Qed.

Lemma tracks_Sinh (G : R -> R) (t : R) (g : Dnum R) :
  tracks G t g -> tracks (fun s => sinh (G s)) t (Sinh g).
Proof.
  intros [Hg Dg]. split.
  - simpl. rewrite Hg. reflexivity.
  - simpl. rewrite Hg.
    apply (derivable_pt_lim_comp G sinh); [assumption | apply derivable_pt_lim_sinh].
Qed.

Lemma tracks_Cosh (G : R -> R) (t : R) (g : Dnum R) :
  tracks G t g -> tracks (fun s => cosh (G s)) t (Cosh g).
Proof.
  intros [Hg Dg]. split.
  - simpl. rewrite Hg. reflexivity.
  - simpl. rewrite Hg.
    apply (derivable_pt_lim_comp G cosh); [assumption | apply derivable_pt_lim_cosh].
Qed.

Lemma tracks_Log (G : R -> R) (t : R) (g : Dnum R) :
  (0 < G t)%R -> tracks G t g -> tracks (fun s => ln (G s)) t (Log g).
Proof.
  intros Hpos [Hg Dg]. split.
  - simpl. rewrite Hg. reflexivity.
  - simpl. rewrite Hg.
    replace (d g / G t)%R with (/ G t * d g)%R by (field; lra).
    apply (derivable_pt_lim_comp G ln); [assumption | apply derivable_pt_lim_ln; assumption].
Qed.

Lemma tracks_add (F G : R -> R) (t : R) (a b : Dnum R) :
  tracks F t a -> tracks G t b -> tracks (F + G)%F t (Dnum_add a b).
Proof.
  intros [Ha Da] [Hb Db]. split.
  - simpl. unfold plus_fct. rewrite Ha, Hb. reflexivity.
  - simpl. apply derivable_pt_lim_plus; assumption.
Qed.

Lemma tracks_sub (F G : R -> R) (t : R) (a b : Dnum R) :
  tracks F t a -> tracks G t b -> tracks (F - G)%F t (Dnum_sub a b).
Proof.
  intros [Ha Da] [Hb Db]. split.
  - simpl. unfold minus_fct. rewrite Ha, Hb. reflexivity.
  - simpl. apply derivable_pt_lim_minus; assumption.
Qed.

(** The seed: the parameter itself, with derivative [1]. *)
Lemma tracks_seed (t : R) : tracks (fun s => s) t (mkDnum t 1%R).
Proof. split; [reflexivity | apply derivable_pt_lim_id]. Qed.

Lemma sin_cos_squares (x : R) : (sin x * sin x + cos x * cos x = 1)%R.
Proof. exact (sin2_cos2 x). Qed.

Lemma cosh_sinh_squares (x : R) : (cosh x * cosh x - sinh x * sinh x = 1)%R.
Proof.
  unfold cosh, sinh.
  replace ((exp x + exp (- x)) / 2 * ((exp x + exp (- x)) / 2)
           - (exp x - exp (- x)) / 2 * ((exp x - exp (- x)) / 2))%R
    with (exp x * exp (- x))%R by field.
  rewrite <- exp_plus, Rplus_opp_r. apply exp_0.
Qed.

Lemma cosh_pos (x : R) : (0 < cosh x)%R.
Proof.
  unfold cosh. pose proof (exp_pos x). pose proof (exp_pos (- x)). lra.
Qed.

(** The quotients [Sin g / Cos g] and [Sinh g / Cosh g] carry the
    derivatives of [tan] and [tanh]. *)
Lemma Tan_derivative (g : Dnum R) :
  cos (f g) <> 0%R -> Tan g = mkDnum (tan (f g)) (d g / (cos (f g) * cos (f g)))%R.
Proof.
  intros Hc. unfold Tan, Dnum_div, Sin, Cos, tan. simpl. f_equal.
  replace ((cos (f g) * (cos (f g) * d g) - - sin (f g) * d g * sin (f g))
           / cos (f g) / cos (f g))%R
    with (d g * (sin (f g) * sin (f g) + cos (f g) * cos (f g))
          / (cos (f g) * cos (f g)))%R by (field; assumption).
  rewrite sin_cos_squares. field. assumption.
Qed.

Lemma Tanh_derivative (g : Dnum R) :
  Tanh g = mkDnum (tanh (f g)) (d g / (cosh (f g) * cosh (f g)))%R.
Proof.
  pose proof (cosh_pos (f g)) as Hc.
  unfold Tanh, Dnum_div, Sinh, Cosh, tanh. simpl. f_equal.
  replace ((cosh (f g) * (cosh (f g) * d g) - sinh (f g) * d g * sinh (f g))
           / cosh (f g) / cosh (f g))%R
    with (d g * (cosh (f g) * cosh (f g) - sinh (f g) * sinh (f g))
          / (cosh (f g) * cosh (f g)))%R by (field; lra).
  rewrite cosh_sinh_squares. field. lra.
Qed.

(** C7.  Dual numbers follow the product and quotient rules,
    [(f,d) * (g,e) = (f * g, f * e + d * g)] and, for [g <> 0],
    [(f,d) / (g,e) = (f / g, (g * d - e * f) / g^2)], with a scalar or a
    [vec2] derivative; the elementary functions apply the chain rule,
    [Sin g = (sin g.f, cos g.f * g.d)] and likewise [Cos], [Exp], [Sinh],
    [Cosh], [Log], [Pow], [Tan] and [Tanh]; and the derivative computed for
    [Sin (Cos x)] from the seed [1] is [- cos (cos x) * sin x], the
    derivative of [sin (cos x)]. *)
Theorem Dnum_rules :
  (forall (f g d e : R),
     Dnum_mul (mkDnum f d) (mkDnum g e) = mkDnum (f * g)%R (f * e + d * g)%R)
  /\ (forall (f g : R) (d e : vec2),
        Dnum_mul (mkDnum f d) (mkDnum g e)
        = mkDnum (f * g)%R (V2.add (V2.scale e f) (V2.scale d g)))
  /\ (forall (f g d e : R), g <> 0%R ->
        Dnum_div (mkDnum f d) (mkDnum g e)
        = mkDnum (f / g)%R ((g * d - e * f) / (g * g))%R)
  /\ (forall (f g : R) (d e : vec2), g <> 0%R ->
        Dnum_div (mkDnum f d) (mkDnum g e)
        = mkDnum (f / g)%R
            (V2.div (V2.sub (V2.scale d g) (V2.scale e f)) (g * g)))
  /\ (forall (g : Dnum R),
        Sin g = mkDnum (sin (f g)) (cos (f g) * d g)%R
        /\ Cos g = mkDnum (cos (f g)) (- sin (f g) * d g)%R
        /\ Exp g = mkDnum (exp (f g)) (exp (f g) * d g)%R
        /\ Sinh g = mkDnum (sinh (f g)) (cosh (f g) * d g)%R
        /\ Cosh g = mkDnum (cosh (f g)) (sinh (f g) * d g)%R
        /\ Log g = mkDnum (ln (f g)) (d g / f g)%R
        /\ (forall n, Pow g n
                      = mkDnum (powf (f g) n) (n * powf (f g) (n - 1) * d g)%R)
        /\ (cos (f g) <> 0%R ->
            Tan g = mkDnum (tan (f g)) (d g / (cos (f g) * cos (f g)))%R)
        /\ Tanh g = mkDnum (tanh (f g)) (d g / (cosh (f g) * cosh (f g)))%R)
  /\ (forall (x : R),
        d (Sin (Cos (mkDnum x 1%R))) = (- cos (cos x) * sin x)%R
        /\ derivable_pt_lim (fun t => sin (cos t)) x (d (Sin (Cos (mkDnum x 1%R))))).
Proof.
  split; [reflexivity|]. split; [reflexivity|].
  split; [|split; [|split]].
  - intros f0 g0 d0 e0 Hg. unfold Dnum_div. simpl. f_equal. field. assumption.
  - intros f0 g0 [d1 d2] [e1 e2] Hg. unfold Dnum_div. simpl.
    unfold V2.div, V2.sub, V2.scale. simpl. f_equal. f_equal; field; assumption.
  - intros g. do 7 (split; [reflexivity|]).
    split; [apply Tan_derivative | apply Tanh_derivative].
  - intros x. split.
    + simpl. ring.
    + apply (tracks_Sin (fun t => cos t) x (Cos (mkDnum x 1%R))).
      apply (tracks_Cos (fun t => t) x). apply tracks_seed.
Qed.

Lemma Dnum_rules_witness :
  (2 <> 0)%R
  /\ Dnum_div (mkDnum 1%R 3%R) (mkDnum 2%R 5%R)
     = mkDnum (1 / 2)%R ((2 * 3 - 5 * 1) / (2 * 2))%R.
Proof.
  assert (H2 : (2 <> 0)%R) by lra.
  split; [exact H2|].
  exact (proj1 (proj2 (proj2 Dnum_rules)) 1%R 2%R 3%R 5%R H2).
Defined.

(** ** Light vectors *)

(** C8.  With [wPos.w = 1], a light of homogeneous weight [0] gives the
    same light vector at any two world positions, and a light of weight [1]
    gives different light vectors at two different world positions. *)
Theorem wLight_directional_positional (light : Light) (p q : vec4) :
  V4.w p = 1%R -> V4.w q = 1%R ->
  (V4.w (wLightPos light) = 0%R -> wLight_entry light p = wLight_entry light q)
  /\ (V4.w (wLightPos light) = 1%R -> V4.xyz p <> V4.xyz q ->
      wLight_entry light p <> wLight_entry light q).
Proof.
  intros Hp Hq. unfold wLight_entry, V3.sub, V3.scale, V4.xyz. simpl.
  rewrite Hp, Hq. split.
  - intros Hw. rewrite Hw. f_equal; ring.
  - intros Hw Hne Heq. rewrite Hw in Heq. apply Hne.
    inversion Heq as [[Hx Hy Hz]].
    f_equal; lra.
Qed.

Lemma wLight_directional_positional_witness :
  (1 = 1)%R
  /\ wLight_entry (mkLight (V3.mk 0 0 0) (V3.mk 0 0 0) (V4.mk 5 5 4 0))
                  (V4.mk 1 2 3 1)
     = wLight_entry (mkLight (V3.mk 0 0 0) (V3.mk 0 0 0) (V4.mk 5 5 4 0))
                    (V4.mk 7 8 9 1).
Proof.
  split; [reflexivity|].
  exact (proj1 (wLight_directional_positional
                  (mkLight (V3.mk 0 0 0) (V3.mk 0 0 0) (V4.mk 5 5 4 0))
                  (V4.mk 1 2 3 1) (V4.mk 7 8 9 1) eq_refl eq_refl) eq_refl).
Defined.

(** ** Animation *)

(** C9.  [Animate] sets the rotation angle to [0.8 * tend] and leaves the
    scale, the translation, the rotation axis and the four references of
    the object as they were. *)
Theorem Animate_frame (o : Object) (tstart tend : R) :
  rotationAngle (Animate tstart tend o) = (0.8 * tend)%R
  /\ scale (Animate tstart tend o) = scale o
  /\ translation (Animate tstart tend o) = translation o
  /\ rotationAxis (Animate tstart tend o) = rotationAxis o
  /\ shader (Animate tstart tend o) = shader o
  /\ material (Animate tstart tend o) = material o
  /\ texture (Animate tstart tend o) = texture o
  /\ geometry (Animate tstart tend o) = geometry o.
Proof. repeat split; reflexivity. Qed.

(** * Further properties *)

(** ** Dual numbers carry true derivatives *)

Lemma tracks_const (c t : R) : tracks (fun _ => c) t (Dnum_const c).
Proof. split; [reflexivity | apply derivable_pt_lim_const]. Qed.

(** X1.  If [a] and [b] carry the values and derivatives at [t] of [F] and
    [G], then [a + b], [a - b], [a * b] and, where [G t <> 0], [a / b] carry
    those of [F + G], [F - G], [F * G] and [F / G]; a dual number built from
    a constant alone carries the constant function. *)
Theorem Dnum_arithmetic_sound (F G : R -> R) (t : R) (a b : Dnum R) :
  tracks F t a -> tracks G t b ->
  tracks (F + G)%F t (Dnum_add a b)
  /\ tracks (F - G)%F t (Dnum_sub a b)
  /\ tracks (F * G)%F t (Dnum_mul a b)
  /\ (G t <> 0%R -> tracks (F / G)%F t (Dnum_div a b))
  /\ (forall c, tracks (fun _ => c) t (Dnum_const c)).
Proof.
  intros Ha Hb. split; [apply tracks_add; assumption|].
  split; [apply tracks_sub; assumption|].
  split; [apply tracks_mul; assumption|].
  split; [intros Hne; apply tracks_div; assumption|].
  intros c. apply tracks_const.
Qed.

Lemma Dnum_arithmetic_sound_witness :
  tracks (fun s => s) 2 (mkDnum 2%R 1%R)
  /\ tracks ((fun s => s) * (fun s => s))%F 2
            (Dnum_mul (mkDnum 2%R 1%R) (mkDnum 2%R 1%R)).
Proof.
  split; [apply tracks_seed|].
  exact (proj1 (proj2 (proj2 (Dnum_arithmetic_sound (fun s => s) (fun s => s) 2
                                (mkDnum 2%R 1%R) (mkDnum 2%R 1%R)
                                (tracks_seed 2) (tracks_seed 2))))).
Defined.

(** X2.  If [g] carries the value and derivative at [t] of [G], then
    [Exp g], [Sin g], [Cos g], [Sinh g] and [Cosh g] carry those of
    [exp (G s)], [sin (G s)], [cos (G s)], [sinh (G s)] and [cosh (G s)],
    and where [G t > 0], [Log g] carries those of [ln (G s)]. *)
Theorem Dnum_elementary_sound (G : R -> R) (t : R) (g : Dnum R) :
  tracks G t g ->
  tracks (fun s => exp (G s)) t (Exp g)
  /\ tracks (fun s => sin (G s)) t (Sin g)
  /\ tracks (fun s => cos (G s)) t (Cos g)
  /\ tracks (fun s => sinh (G s)) t (Sinh g)
  /\ tracks (fun s => cosh (G s)) t (Cosh g)
  /\ ((0 < G t)%R -> tracks (fun s => ln (G s)) t (Log g)).
Proof.
  intros Hg. split; [apply tracks_Exp; assumption|].
  split; [apply tracks_Sin; assumption|].
  split; [apply tracks_Cos; assumption|].
  split; [apply tracks_Sinh; assumption|].
  split; [apply tracks_Cosh; assumption|].
  intros Hpos. apply tracks_Log; assumption.
Qed.

Lemma Dnum_elementary_sound_witness :
  tracks (fun s => s) 2 (mkDnum 2%R 1%R)
  /\ tracks (fun s => ln s) 2 (Log (mkDnum 2%R 1%R)).
Proof.
  split; [apply tracks_seed|].
  apply (Dnum_elementary_sound (fun s => s) 2 (mkDnum 2%R 1%R) (tracks_seed 2)).
  lra.
Defined.

(** X3.  If [g] carries the value and derivative at [t] of [G], then [Tanh g]
    carries those of [tanh (G s)], and where [cos (G t) <> 0], [Tan g]
    carries those of [tan (G s)]. *)
Theorem Dnum_tangents_sound (G : R -> R) (t : R) (g : Dnum R) :
  tracks G t g ->
  (cos (G t) <> 0%R -> tracks (fun s => tan (G s)) t (Tan g))
  /\ tracks (fun s => tanh (G s)) t (Tanh g).
Proof.
  intros Hg. split.
  - intros Hc.
    change (fun s => tan (G s)) with ((fun s => sin (G s)) / (fun s => cos (G s)))%F.
    apply tracks_div; [assumption | apply tracks_Sin | apply tracks_Cos]; assumption.
  - change (fun s => tanh (G s)) with ((fun s => sinh (G s)) / (fun s => cosh (G s)))%F.
    apply tracks_div; [| apply tracks_Sinh | apply tracks_Cosh]; try assumption.
    pose proof (cosh_pos (G t)). lra.
Qed.

Lemma Dnum_tangents_sound_witness :
  tracks (fun s => s) 0 (mkDnum 0%R 1%R)
  /\ tracks (fun s => tan s) 0 (Tan (mkDnum 0%R 1%R)).
Proof.
  split; [apply tracks_seed|].
  apply (Dnum_tangents_sound (fun s => s) 0 (mkDnum 0%R 1%R) (tracks_seed 0)).
  rewrite cos_0. lra.
Defined.




(** ** The height field as a function *)

Lemma derivable_pt_lim_eq (F G : R -> R) (x l : R) :
  (forall s, F s = G s) -> derivable_pt_lim F x l -> derivable_pt_lim G x l.
Proof.
  intros Heq HF eps Heps. destruct (HF eps Heps) as [delta Hdelta].
  exists delta. intros h0 Hh0 Hlt. rewrite <- !Heq. apply Hdelta; assumption.
Qed.

Lemma derivable_pt_lim_affine (a b x : R) :
  derivable_pt_lim (fun s => a * s + b)%R x a.
Proof.
  assert (H : derivable_pt_lim (mult_real_fct a id + fct_cte b)%F x (a * 1 + 0)%R).
  { apply derivable_pt_lim_plus;
      [apply derivable_pt_lim_scal, derivable_pt_lim_id | apply derivable_pt_lim_const]. }
  replace (a * 1 + 0)%R with a in H by ring.
  exact H.
Qed.

(** The derivative of one harmonic along an affine argument. *)
Lemma harmonic_derivative (e a b x : R) :
  derivable_pt_lim (fun s => e * cos (a * s + b))%R x (e * (- a * sin (a * x + b)))%R.
Proof.
  replace (e * (- a * sin (a * x + b)))%R with (e * (- sin (a * x + b) * a))%R by ring.
  apply (derivable_pt_lim_scal (fun s => cos (a * s + b))%R e).
  apply (derivable_pt_lim_comp (fun s => a * s + b)%R cos).
  - apply derivable_pt_lim_affine.
  - apply derivable_pt_lim_cos.
Qed.

Lemma sum_from_derivable (g : Z -> R -> R) (g' : Z -> R) (x : R) :
  forall (k : nat) (i : Z),
    (forall j, (i <= j < i + Z.of_nat k)%Z -> derivable_pt_lim (g j) x (g' j)) ->
    derivable_pt_lim (fun s => sum_from k i (fun j => g j s)) x (sum_from k i g').
Proof.
  induction k as [|k IH]; intros i Hg; simpl.
  - apply derivable_pt_lim_const.
  - apply (derivable_pt_lim_plus (g i) (fun s => sum_from k (i + 1) (fun j => g j s))).
    + apply Hg. lia.
    + apply IH. intros j Hj. apply Hg. lia.
Qed.

Lemma sum_upto_derivable (n : Z) (g : Z -> R -> R) (g' : Z -> R) (x : R) :
  (forall j, (0 <= j <= n)%Z -> derivable_pt_lim (g j) x (g' j)) ->
  derivable_pt_lim (fun s => sum_upto n (fun j => g j s)) x (sum_upto n g').
Proof.
  intros Hg. unfold sum_upto. apply sum_from_derivable. intros j Hj. apply Hg. lia.
Qed.

(** The two derivative sums are the partial derivatives of the height sum
    with respect to the angular coordinates. *)
Lemma height_spec_dx (A : R) (coeffs : list R) (x' y' : R) (n : Z) :
  derivable_pt_lim (fun s => height_spec A coeffs s y' n) x'
                   (dheight_dx_spec A coeffs x' y' n).
Proof.
  unfold height_spec, dheight_dx_spec, harmonic_arg.
  apply (sum_upto_derivable n
           (fun i s => sum_upto n (fun j =>
              E_spec A i j * cos (IZR i * s + IZR j * y' + coeff coeffs (i * n + j))))%R).
  intros i Hi.
  apply (sum_upto_derivable n
           (fun j s => E_spec A i j
                       * cos (IZR i * s + IZR j * y' + coeff coeffs (i * n + j)))%R).
  intros j Hj.
  apply (derivable_pt_lim_eq
           (fun s => E_spec A i j
                     * cos (IZR i * s + (IZR j * y' + coeff coeffs (i * n + j))))%R).
  - intros s. f_equal. f_equal. ring.
  - replace (IZR i * x' + IZR j * y' + coeff coeffs (i * n + j))%R
      with (IZR i * x' + (IZR j * y' + coeff coeffs (i * n + j)))%R by ring.
    apply harmonic_derivative.
Qed.

Lemma height_spec_dy (A : R) (coeffs : list R) (x' y' : R) (n : Z) :
  derivable_pt_lim (fun s => height_spec A coeffs x' s n) y'
                   (dheight_dy_spec A coeffs x' y' n).
Proof.
  unfold height_spec, dheight_dy_spec, harmonic_arg.
  apply (sum_upto_derivable n
           (fun i s => sum_upto n (fun j =>
              E_spec A i j * cos (IZR i * x' + IZR j * s + coeff coeffs (i * n + j))))%R).
  intros i Hi.
  apply (sum_upto_derivable n
           (fun j s => E_spec A i j
                       * cos (IZR i * x' + IZR j * s + coeff coeffs (i * n + j)))%R).
  intros j Hj.
  apply (derivable_pt_lim_eq
           (fun s => E_spec A i j
                     * cos (IZR j * s + (IZR i * x' + coeff coeffs (i * n + j))))%R).
  - intros s. f_equal. f_equal. ring.
  - replace (IZR i * x' + IZR j * y' + coeff coeffs (i * n + j))%R
      with (IZR j * y' + (IZR i * x' + coeff coeffs (i * n + j)))%R by ring.
    apply harmonic_derivative.
Qed.

Lemma returned_height_covered (A : R) (coeffs : list R) (n : Z) (x y : R) :
  covers coeffs n ->
  returned_height A coeffs n x y
  = height_spec A coeffs (x * PI - PI) (y * PI - PI) n.
Proof.
  intros Hcov. unfold returned_height.
  rewrite getTerrainInfo_eq by assumption. reflexivity.
Qed.

(** X5.  Whenever a query at [(x, y)] returns, the returned height is
    differentiable in [x] and in [y] there, and the normal holds the slopes:
    the partial derivatives of the height are [- PI * norm.x] and
    [- PI * norm.z] (the sums are derivatives with respect to the angular
    coordinates, which move [PI] times as fast as [x] and [y]). *)
Theorem getTerrainInfo_normal_is_gradient (A : R) (coeffs : list R) (x y : R)
    (n : Z) (height : R) (norm : vec3) :
  getTerrainInfo A coeffs x y n = Some (height, norm) ->
  derivable_pt_lim (fun s => returned_height A coeffs n s y) x (- PI * V3.x norm)%R
  /\ derivable_pt_lim (fun s => returned_height A coeffs n x s) y (- PI * V3.z norm)%R.
Proof.
  intros Hrun. apply getTerrainInfo_Some in Hrun.
  destruct Hrun as (Hcov & _ & ->). simpl. split.
  - apply (derivable_pt_lim_eq
             (fun s => height_spec A coeffs (PI * s + - PI) (y * PI - PI) n)).
    + intros s. rewrite returned_height_covered by assumption.
      f_equal. ring.
    + replace (- PI * - dheight_dx_spec A coeffs (x * PI - PI) (y * PI - PI) n)%R
        with (dheight_dx_spec A coeffs (x * PI - PI) (y * PI - PI) n * PI)%R by ring.
      apply (derivable_pt_lim_comp (fun s => PI * s + - PI)%R
               (fun s => height_spec A coeffs s (y * PI - PI) n)).
      * apply derivable_pt_lim_affine.
      * replace (PI * x + - PI)%R with (x * PI - PI)%R by ring.
        apply height_spec_dx.
  - apply (derivable_pt_lim_eq
             (fun s => height_spec A coeffs (x * PI - PI) (PI * s + - PI) n)).
    + intros s. rewrite returned_height_covered by assumption.
      f_equal. ring.
    + replace (- PI * - dheight_dy_spec A coeffs (x * PI - PI) (y * PI - PI) n)%R
        with (dheight_dy_spec A coeffs (x * PI - PI) (y * PI - PI) n * PI)%R by ring.
      apply (derivable_pt_lim_comp (fun s => PI * s + - PI)%R
               (fun s => height_spec A coeffs (x * PI - PI) s n)).
      * apply derivable_pt_lim_affine.
      * replace (PI * y + - PI)%R with (y * PI - PI)%R by ring.
        apply height_spec_dy.
Qed.

Lemma getTerrainInfo_normal_is_gradient_witness :
  exists height norm,
    getTerrainInfo 0.5 (repeat 0%R 1261) 0.5 0.5 35 = Some (height, norm)
    /\ derivable_pt_lim (fun s => returned_height 0.5 (repeat 0%R 1261) 35 s 0.5%R)
                        0.5%R (- PI * V3.x norm)%R.
Proof.
  pose proof (getTerrainInfo_eq 0.5 (repeat 0%R 1261) 0.5 0.5 35
                zero_table_covers_35) as Hrun.
  eexists. eexists. split; [exact Hrun|].
  exact (proj1 (getTerrainInfo_normal_is_gradient _ _ _ _ _ _ _ Hrun)).
Defined.

Lemma getTerrainInfo_uncovered (A : R) (coeffs : list R) (x y : R) (n : Z) :
  ~ covers coeffs n -> getTerrainInfo A coeffs x y n = None.
Proof.
  intros Hncov.
  destruct (getTerrainInfo A coeffs x y n) as [r|] eqn:Hrun; [|reflexivity].
  exfalso. apply Hncov. apply (getTerrainInfo_defined A coeffs x y n).
  rewrite Hrun. discriminate.
Qed.

Lemma IZR_nonneg_INR (i : Z) : (0 <= i)%Z -> IZR i = INR (Z.to_nat i).
Proof. intros Hi. rewrite INR_IZR_INZ, Z2Nat.id by assumption. reflexivity. Qed.

Lemma cos_whole_turns (a : R) (i : Z) :
  (0 <= i)%Z -> cos (a + 2 * IZR i * PI) = cos a.
Proof. intros Hi. rewrite (IZR_nonneg_INR i) by assumption. apply cos_period. Qed.

Lemma sin_whole_turns (a : R) (i : Z) :
  (0 <= i)%Z -> sin (a + 2 * IZR i * PI) = sin a.
Proof. intros Hi. rewrite (IZR_nonneg_INR i) by assumption. apply sin_period. Qed.

(** The three sums at a domain point shifted by [(2 * p, 2 * q)]. *)
Lemma sums_shifted (A : R) (coeffs : list R) (x y p q : R) (n : Z) :
  (p = 0%R \/ p = 1%R) -> (q = 0%R \/ q = 1%R) ->
  height_spec A coeffs ((x + 2 * p) * PI - PI) ((y + 2 * q) * PI - PI) n
  = height_spec A coeffs (x * PI - PI) (y * PI - PI) n
  /\ dheight_dx_spec A coeffs ((x + 2 * p) * PI - PI) ((y + 2 * q) * PI - PI) n
     = dheight_dx_spec A coeffs (x * PI - PI) (y * PI - PI) n
  /\ dheight_dy_spec A coeffs ((x + 2 * p) * PI - PI) ((y + 2 * q) * PI - PI) n
     = dheight_dy_spec A coeffs (x * PI - PI) (y * PI - PI) n.
Proof.
  intros Hp Hq.
  assert (Harg : forall i j, (0 <= i)%Z -> (0 <= j)%Z ->
            exists m, (0 <= m)%Z
              /\ harmonic_arg coeffs ((x + 2 * p) * PI - PI) ((y + 2 * q) * PI - PI) n i j
                 = (harmonic_arg coeffs (x * PI - PI) (y * PI - PI) n i j
                    + 2 * IZR m * PI)%R).
  { intros i j Hi Hj. unfold harmonic_arg.
    destruct Hp as [-> | ->]; destruct Hq as [-> | ->].
    - exists 0%Z. split; [lia | ring].
    - exists j. split; [lia | ring].
    - exists i. split; [lia | ring].
    - exists (i + j)%Z. split; [lia | rewrite plus_IZR; ring]. }
  unfold height_spec, dheight_dx_spec, dheight_dy_spec.
  split; [|split]; apply sum_upto_ext; intros i Hi; apply sum_upto_ext; intros j Hj;
    destruct (Harg i j ltac:(lia) ltac:(lia)) as (m & Hm & Heq); rewrite Heq;
    first [rewrite (cos_whole_turns _ m Hm) | rewrite (sin_whole_turns _ m Hm)];
    reflexivity.
Qed.

(** X6.  The terrain repeats with period [2] in each domain coordinate: a
    query at [(x + 2, y)] or at [(x, y + 2)] gives what the query at
    [(x, y)] gives, height and normal (and is undefined when that one is). *)
Theorem getTerrainInfo_periodic (A : R) (coeffs : list R) (x y : R) (n : Z) :
  getTerrainInfo A coeffs (x + 2) y n = getTerrainInfo A coeffs x y n
  /\ getTerrainInfo A coeffs x (y + 2) n = getTerrainInfo A coeffs x y n.
Proof.
  destruct (covers_dec coeffs n) as [Hcov | Hncov].
  - rewrite !getTerrainInfo_eq by assumption.
    destruct (sums_shifted A coeffs x y 1 0 n) as (H1 & H2 & H3); [right; reflexivity | left; reflexivity |].
    destruct (sums_shifted A coeffs x y 0 1 n) as (H4 & H5 & H6); [left; reflexivity | right; reflexivity |].
    replace (x + 2 * 1)%R with (x + 2)%R in * by ring.
    replace (y + 2 * 1)%R with (y + 2)%R in * by ring.
    replace (x + 2 * 0)%R with x in * by ring.
    replace (y + 2 * 0)%R with y in * by ring.
    rewrite H1, H2, H3, H4, H5, H6. split; reflexivity.
  - rewrite !getTerrainInfo_uncovered by assumption. split; reflexivity.
Qed.

(** ** The range of the heights *)

Lemma sum_from_Rabs_le (g b : Z -> R) :
  forall (k : nat) (i : Z),
    (forall j, (i <= j < i + Z.of_nat k)%Z -> (Rabs (g j) <= b j)%R) ->
    (Rabs (sum_from k i g) <= sum_from k i b)%R.
Proof.
  induction k as [|k IH]; intros i Hg; simpl.
  - rewrite Rabs_R0. lra.
  - pose proof (Rabs_triang (g i) (sum_from k (i + 1) g)) as Htri.
    assert (Rabs (g i) <= b i)%R by (apply Hg; lia).
    assert (Rabs (sum_from k (i + 1) g) <= sum_from k (i + 1) b)%R
      by (apply IH; intros; apply Hg; lia).
    lra.
Qed.

Lemma sum_from_le_const (g : Z -> R) (c : R) :
  forall (k : nat) (i : Z),
    (forall j, (i <= j < i + Z.of_nat k)%Z -> (g j <= c)%R) ->
    (sum_from k i g <= INR k * c)%R.
Proof.
  induction k as [|k IH]; intros i Hg.
  - simpl. lra.
  - rewrite S_INR. simpl.
    assert (g i <= c)%R by (apply Hg; lia).
    assert (sum_from k (i + 1) g <= INR k * c)%R
      by (apply IH; intros; apply Hg; lia).
    lra.
Qed.

Lemma sum_upto_split (n : Z) (g : Z -> R) :
  (0 <= n)%Z -> sum_upto n g = (g 0%Z + sum_from (Z.to_nat n) 1 g)%R.
Proof.
  intros Hn. unfold sum_upto.
  replace (Z.to_nat (n + 1)) with (S (Z.to_nat n)) by lia. reflexivity.
Qed.

(** A weight never exceeds the amplitude. *)
Lemma E_spec_le_A (A : R) (i j : Z) : (0 <= A)%R -> (E_spec A i j <= A)%R.
Proof.
  intros HA. unfold E_spec.
  destruct ((i =? 0) && (j =? 0))%Z eqn:Hij; [assumption|].
  assert (Hone : (1 <= IZR i * IZR i + IZR j * IZR j)%R).
  { rewrite <- !mult_IZR, <- plus_IZR. apply IZR_le.
    apply andb_false_iff in Hij. destruct Hij as [Hi | Hj].
    - apply Z.eqb_neq in Hi. nia.
    - apply Z.eqb_neq in Hj. nia. }
  assert (Hs : (1 <= sqrt (IZR i * IZR i + IZR j * IZR j))%R).
  { rewrite <- sqrt_1. apply sqrt_le_1_alt. assumption. }
  apply (Rmult_le_reg_r (sqrt (IZR i * IZR i + IZR j * IZR j))); [lra|].
  unfold Rdiv. rewrite Rmult_assoc, Rinv_l by lra. nra.
Qed.

(** The sum of all weights of order [n]. *)
Lemma weights_total (A : R) (n : Z) :
  (0 <= A)%R -> (0 <= n)%Z ->
  (sum_upto n (fun i => sum_upto n (fun j => E_spec A i j))
   <= A * IZR n * (IZR n + 2))%R.
Proof.
  intros HA Hn.
  assert (Hrow : forall i, (sum_upto n (fun j => E_spec A i j)
                            <= E_spec A i 0 + IZR n * A)%R).
  { intros i. rewrite sum_upto_split by assumption.
    pose proof (sum_from_le_const (fun j => E_spec A i j) A (Z.to_nat n) 1
                  ltac:(intros; apply E_spec_le_A; assumption)) as Hc.
    rewrite <- IZR_nonneg_INR in Hc by assumption. lra. }
  rewrite sum_upto_split by assumption.
  assert (H0 : (sum_upto n (fun j => E_spec A 0 j) <= IZR n * A)%R).
  { pose proof (Hrow 0%Z) as H. unfold E_spec in H at 2. simpl in H. lra. }
  pose proof (sum_from_le_const (fun i => sum_upto n (fun j => E_spec A i j))
                (A + IZR n * A) (Z.to_nat n) 1) as Hrest.
  rewrite <- IZR_nonneg_INR in Hrest by assumption.
  assert (Hrest' : (sum_from (Z.to_nat n) 1
                      (fun i => sum_upto n (fun j => E_spec A i j))
                    <= IZR n * (A + IZR n * A))%R).
  { apply Hrest. intros i _. pose proof (Hrow i). pose proof (E_spec_le_A A i 0 HA). lra. }
  nra.
Qed.

(** X7.  With a non-negative amplitude [A] and an order [n >= 0], every
    height a query returns lies between [- A * n * (n + 2)] and
    [A * n * (n + 2)]. *)
Theorem getTerrainInfo_height_bounded (A : R) (coeffs : list R) (x y : R)
    (n : Z) (height : R) (norm : vec3) :
  (0 <= A)%R -> (0 <= n)%Z ->
  getTerrainInfo A coeffs x y n = Some (height, norm) ->
  (Rabs height <= A * IZR n * (IZR n + 2))%R.
Proof.
  intros HA Hn Hrun. apply getTerrainInfo_Some in Hrun.
  destruct Hrun as (_ & -> & _).
  apply Rle_trans with (sum_upto n (fun i => sum_upto n (fun j => E_spec A i j))).
  - unfold height_spec, sum_upto.
    apply sum_from_Rabs_le. intros i _.
    apply sum_from_Rabs_le. intros j _.
    rewrite Rabs_mult.
    pose proof (E_spec_nonneg A i j HA) as HE. rewrite (Rabs_pos_eq _ HE).
    pose proof (COS_bound (harmonic_arg coeffs (x * PI - PI) (y * PI - PI) n i j))
      as [Hlo Hhi].
    assert (Rabs (cos (harmonic_arg coeffs (x * PI - PI) (y * PI - PI) n i j)) <= 1)%R
      by (apply Rabs_le; lra).
    nra.
  - apply weights_total; assumption.
Qed.

Lemma getTerrainInfo_height_bounded_witness :
  exists height norm,
    getTerrainInfo 0.5 (repeat 0%R 1261) 0.5 0.5 35 = Some (height, norm)
    /\ (Rabs height <= 0.5 * 35 * (35 + 2))%R.
Proof.
  pose proof (getTerrainInfo_eq 0.5 (repeat 0%R 1261) 0.5 0.5 35
                zero_table_covers_35) as Hrun.
  eexists. eexists. split; [exact Hrun|].
  apply (getTerrainInfo_height_bounded 0.5 (repeat 0%R 1261) 0.5 0.5 35 _ _
           ltac:(lra) ltac:(lia) Hrun).
Defined.

(** ** The phase that is read and not used *)

Lemma with_first_phase_length (p : R) (coeffs : list R) :
  length (with_first_phase p coeffs) = length coeffs.
Proof. destruct coeffs; reflexivity. Qed.

Lemma with_first_phase_coeff (p : R) (coeffs : list R) (k : Z) :
  (1 <= k)%Z -> coeff (with_first_phase p coeffs) k = coeff coeffs k.
Proof.
  intros Hk. unfold coeff.
  destruct (Z.to_nat k) as [|m] eqn:Hm; [lia|].
  destruct coeffs as [|c t]; reflexivity.
Qed.

Lemma with_first_phase_covers (p : R) (coeffs : list R) (n : Z) :
  covers (with_first_phase p coeffs) n <-> covers coeffs n.
Proof. unfold covers. rewrite with_first_phase_length. reflexivity. Qed.

(** X8.  The value of [coeffs[0]] never influences a query: it is read, but
    only for the harmonic [(0, 0)], whose weight is [0].  Replacing it by any
    [p] leaves the result of every query as it was. *)
Theorem getTerrainInfo_ignores_first_phase (A : R) (coeffs : list R) (p : R)
    (x y : R) (n : Z) :
  getTerrainInfo A (with_first_phase p coeffs) x y n = getTerrainInfo A coeffs x y n.
Proof.
  destruct (covers_dec coeffs n) as [Hcov | Hncov].
  - rewrite (getTerrainInfo_eq A coeffs) by assumption.
    rewrite (getTerrainInfo_eq A (with_first_phase p coeffs))
      by (apply with_first_phase_covers; assumption).
    assert (Hterm : forall (t : R -> R) i j, (0 <= i <= n)%Z -> (0 <= j <= n)%Z ->
              (E_spec A i j
               * t (harmonic_arg (with_first_phase p coeffs)
                      (x * PI - PI) (y * PI - PI) n i j)
               = E_spec A i j
                 * t (harmonic_arg coeffs (x * PI - PI) (y * PI - PI) n i j))%R).
    { intros t i j Hi Hj. unfold E_spec, harmonic_arg.
      destruct ((i =? 0) && (j =? 0))%Z eqn:Hij; [ring|].
      rewrite with_first_phase_coeff; [reflexivity|].
      apply andb_false_iff in Hij.
      destruct Hij as [H0 | H0]; apply Z.eqb_neq in H0; nia. }
    unfold height_spec, dheight_dx_spec, dheight_dy_spec.
    f_equal. f_equal; [|f_equal; f_equal];
      apply sum_upto_ext; intros i Hi; apply sum_upto_ext; intros j Hj.
    + apply (Hterm cos); assumption.
    + apply (Hterm (fun a => - IZR i * sin a)%R); assumption.
    + apply (Hterm (fun a => - IZR j * sin a)%R); assumption.
  - rewrite !getTerrainInfo_uncovered;
      [reflexivity | assumption | rewrite with_first_phase_covers; assumption].
Qed.

(** ** The mesh [create] returns *)

(** What a run of [create] that returns has built. *)
Lemma create_Some_eq (A : R) (coeffs : list R) (N M : Z) (s : ParamSurface) :
  (0 < N)%Z -> (0 <= M)%Z ->
  create A coeffs N M = Some s ->
  covers coeffs 35
  /\ (N * ((M + 1) * 2) <= INT_MAX)%Z
  /\ s = {| nVtxPerStrip := (M + 1) * 2;
            nStrips := N;
            vbo_data :=
              map (rescale (Rlist_min (raw_heights A coeffs N M))
                           (Rlist_max (raw_heights A coeffs N M)))
                  (map (fun uv => vertex_spec A coeffs (fst uv) (snd uv))
                       (grid_points N M)) |}.
Proof.
  intros HN HM Hrun.
  destruct (create_Some A coeffs N M s HN HM Hrun) as [Hcov Hmax].
  rewrite create_eq in Hrun by (lia || assumption).
  inversion Hrun. auto.
Qed.

Lemma In_concat_from {X : Type} (g : Z -> list X) (a : X) :
  forall (k : nat) (i : Z),
    In a (concat_from k i g) ->
    exists j, (i <= j < i + Z.of_nat k)%Z /\ In a (g j).
Proof.
  induction k as [|k IH]; intros i Hin; simpl in Hin; [contradiction|].
  apply in_app_or in Hin. destruct Hin as [Hin | Hin].
  - exists i. split; [lia | assumption].
  - destruct (IH (i + 1)%Z Hin) as (j & Hj & Hg). exists j. split; [lia | assumption].
Qed.

(** Every parametric point of the grid lies in the unit square. *)
Lemma grid_points_unit_square (N M : Z) (u v : R) :
  (0 < N)%Z -> (0 < M)%Z -> In (u, v) (grid_points N M) ->
  (0 <= u <= 1 /\ 0 <= v <= 1)%R.
Proof.
  intros HN HM Hin. unfold grid_points in Hin.
  apply In_concat_from in Hin. destruct Hin as (row & Hrow & Hin).
  apply In_concat_from in Hin. destruct Hin as (col & Hcol & Hin).
  assert (HNr : (0 < IZR N)%R) by (apply IZR_lt; assumption).
  assert (HMr : (0 < IZR M)%R) by (apply IZR_lt; assumption).
  assert (Hc0 : (0 <= IZR col)%R) by (apply IZR_le; lia).
  assert (Hc1 : (IZR col <= IZR M)%R) by (apply IZR_le; lia).
  assert (Hr0 : (0 <= IZR row)%R) by (apply IZR_le; lia).
  assert (Hr1 : (IZR (row + 1) <= IZR N)%R) by (apply IZR_le; lia).
  assert (Hr2 : (IZR row <= IZR (row + 1))%R) by (apply IZR_le; lia).
  assert (Hfrac : forall a b, (0 <= a <= b)%R -> (0 < b)%R -> (0 <= a / b <= 1)%R).
  { intros a b Ha Hb. split.
    - apply Rmult_le_pos; [lra | apply Rlt_le, Rinv_0_lt_compat; assumption].
    - apply (Rmult_le_reg_r b); [assumption|].
      unfold Rdiv. rewrite Rmult_assoc, Rinv_l by lra. lra. }
  unfold grid_pair in Hin.
  destruct Hin as [Heq | [Heq | []]]; inversion Heq; subst;
    split; apply Hfrac; lra.
Qed.

(** X9.  For [N, M > 0] every vertex of a mesh [create] returns lies over
    the square of side [15] centred at the origin: its position has [x] and
    [z] between [-7.5] and [7.5]; the first vertex sits at the corner
    [(-7.5, -7.5)] and the last one at the corner [(7.5, 7.5)]. *)
Theorem create_mesh_extent (A : R) (coeffs : list R) (N M : Z) (s : ParamSurface) :
  (0 < N)%Z -> (0 < M)%Z ->
  create A coeffs N M = Some s ->
  (forall v, In v (vbo_data s) ->
     (-7.5 <= V3.x (position v) <= 7.5)%R /\ (-7.5 <= V3.z (position v) <= 7.5)%R)
  /\ (exists v, nth_error (vbo_data s) 0 = Some v
                /\ V3.x (position v) = (-7.5)%R /\ V3.z (position v) = (-7.5)%R)
  /\ (exists v, nth_error (vbo_data s) (length (vbo_data s) - 1) = Some v
                /\ V3.x (position v) = 7.5%R /\ V3.z (position v) = 7.5%R).
Proof.
  intros HN HM Hrun.
  destruct (create_Some_eq A coeffs N M s HN ltac:(lia) Hrun) as (_ & _ & ->).
  cbn [vbo_data]. split; [|split].
  - intros v Hin. rewrite map_map in Hin. apply in_map_iff in Hin.
    destruct Hin as ([u w] & <- & Hin).
    destruct (grid_points_unit_square N M u w HN HM Hin) as [Hu Hw].
    simpl. lra.
  - pose proof (nth_error_grid_points N M 0 0 0 ltac:(lia) ltac:(lia) ltac:(lia)) as H0.
    unfold grid_pair in H0. cbn [nth_error] in H0.
    replace (Z.to_nat (2 * (0 * (M + 1) + 0)) + 0)%nat with 0%nat in H0 by lia.
    eexists. rewrite !nth_error_map, H0. cbn [option_map].
    split; [reflexivity|]. simpl. unfold Rdiv. rewrite !Rmult_0_l. split; lra.
  - pose proof (nth_error_grid_points N M (N - 1) M 1
                  ltac:(lia) ltac:(lia) ltac:(lia)) as H1.
    replace (Z.to_nat (2 * ((N - 1) * (M + 1) + M)) + 1)%nat
      with (Z.to_nat N * (Z.to_nat (M + 1) * 2) - 1)%nat in H1 by nia.
    unfold grid_pair in H1. cbn [nth_error] in H1.
    eexists. rewrite !length_map, length_grid_points, !nth_error_map, H1.
    cbn [option_map].
    split; [reflexivity|]. simpl.
    replace (N - 1 + 1)%Z with N by lia.
    unfold Rdiv. rewrite !Rinv_r by (apply not_0_IZR; lia). split; lra.
Qed.

Lemma create_mesh_extent_witness :
  exists s,
    create 0.5 (repeat 0%R 1261) 2 3 = Some s
    /\ forall v, In v (vbo_data s) ->
         (-7.5 <= V3.x (position v) <= 7.5)%R /\ (-7.5 <= V3.z (position v) <= 7.5)%R.
Proof.
  assert (Hmax : (2 * ((3 + 1) * 2) <= INT_MAX)%Z) by (unfold INT_MAX; lia).
  pose proof (create_eq 0.5 (repeat 0%R 1261) 2 3 ltac:(lia) ltac:(lia) Hmax
                zero_table_covers_35) as Hrun.
  eexists. split; [exact Hrun|].
  exact (proj1 (create_mesh_extent 0.5 (repeat 0%R 1261) 2 3 _
                  ltac:(lia) ltac:(lia) Hrun)).
Defined.

(** X10.  Neighbouring strips share their common row: for [N, M > 0], in a
    mesh [create] returns, the second vertex of [(row, col)] and the first
    vertex of [(row + 1, col)] are the same vertex (position, normal and
    height attribute). *)
Theorem create_strips_share_row (A : R) (coeffs : list R) (N M : Z)
    (s : ParamSurface) (row col : Z) :
  (0 < N)%Z -> (0 < M)%Z ->
  create A coeffs N M = Some s ->
  (0 <= row)%Z -> (row + 1 < N)%Z -> (0 <= col <= M)%Z ->
  exists v,
    nth_error (vbo_data s) (Z.to_nat (2 * (row * (M + 1) + col)) + 1) = Some v
    /\ nth_error (vbo_data s) (Z.to_nat (2 * ((row + 1) * (M + 1) + col))) = Some v.
Proof.
  intros HN HM Hrun Hrow Hrow1 Hcol.
  destruct (create_Some_eq A coeffs N M s HN ltac:(lia) Hrun) as (_ & _ & ->).
  cbn [vbo_data].
  pose proof (nth_error_grid_points N M row col 1 ltac:(lia) Hcol ltac:(lia)) as H1.
  pose proof (nth_error_grid_points N M (row + 1) col 0 ltac:(lia) Hcol ltac:(lia)) as H0.
  rewrite Nat.add_0_r in H0. unfold grid_pair in H0, H1. cbn [nth_error] in H0, H1.
  eexists. rewrite !nth_error_map, H0, H1. cbn [option_map].
  split; reflexivity.
Qed.

Lemma create_strips_share_row_witness :
  exists s v,
    create 0.5 (repeat 0%R 1261) 2 3 = Some s
    /\ nth_error (vbo_data s) 3 = Some v
    /\ nth_error (vbo_data s) 10 = Some v.
Proof.
  assert (Hmax : (2 * ((3 + 1) * 2) <= INT_MAX)%Z) by (unfold INT_MAX; lia).
  pose proof (create_eq 0.5 (repeat 0%R 1261) 2 3 ltac:(lia) ltac:(lia) Hmax
                zero_table_covers_35) as Hrun.
  destruct (create_strips_share_row 0.5 (repeat 0%R 1261) 2 3 _ 0 1
              ltac:(lia) ltac:(lia) Hrun ltac:(lia) ltac:(lia) ltac:(lia))
    as (v & Ha & Hb).
  eexists. exists v. split; [exact Hrun|]. split; [exact Ha | exact Hb].
Defined.

Lemma map_position_y (A : R) (coeffs : list R) (N M : Z) (mn mx : R) :
  map (fun v => V3.y (position v))
      (map (rescale mn mx)
           (map (fun uv => vertex_spec A coeffs (fst uv) (snd uv)) (grid_points N M)))
  = raw_heights A coeffs N M.
Proof. rewrite !map_map. reflexivity. Qed.

(** X11.  For [N, M > 0], in a mesh [create] returns whose vertices are not
    all at one height, the height attribute of every vertex is its own
    [position.y] rescaled by the least and greatest [position.y] of the
    mesh, and lies between [0] and [1]; the positions keep the raw
    heights. *)
Theorem create_height_attribute (A : R) (coeffs : list R) (N M : Z)
    (s : ParamSurface) :
  (0 < N)%Z -> (0 < M)%Z ->
  create A coeffs N M = Some s ->
  (Rlist_min (map (fun v => V3.y (position v)) (vbo_data s))
   < Rlist_max (map (fun v => V3.y (position v)) (vbo_data s)))%R ->
  forall v, In v (vbo_data s) ->
    h v = ((V3.y (position v)
            - Rlist_min (map (fun v => V3.y (position v)) (vbo_data s)))
           / (Rlist_max (map (fun v => V3.y (position v)) (vbo_data s))
              - Rlist_min (map (fun v => V3.y (position v)) (vbo_data s))))%R
    /\ (0 <= h v <= 1)%R.
Proof.
  intros HN HM Hrun.
  destruct (create_Some_eq A coeffs N M s HN ltac:(lia) Hrun) as (_ & _ & ->).
  cbn [vbo_data]. rewrite map_position_y.
  set (mn := Rlist_min (raw_heights A coeffs N M)).
  set (mx := Rlist_max (raw_heights A coeffs N M)).
  intros Hlt v Hin.
  apply in_map_iff in Hin. destruct Hin as (v0 & <- & Hin).
  apply in_map_iff in Hin. destruct Hin as ([u w] & <- & Hin).
  split; [reflexivity|].
  assert (Hraw : In (raw_height A coeffs u w) (raw_heights A coeffs N M)).
  { unfold raw_heights.
    apply (in_map (fun uv => raw_height A coeffs (fst uv) (snd uv)) _ (u, w)).
    assumption. }
  pose proof (Rlist_min_least _ _ Hraw) as Hlo.
  pose proof (Rlist_max_greatest _ _ Hraw) as Hhi.
  fold mn in Hlo. fold mx in Hhi. simpl.
  split.
  - apply Rmult_le_pos; [lra | apply Rlt_le, Rinv_0_lt_compat; lra].
  - apply (Rmult_le_reg_r (mx - mn)); [lra|].
    unfold Rdiv. rewrite Rmult_assoc, Rinv_l by lra. lra.
Qed.

Lemma create_height_attribute_witness :
  exists s,
    create 1 (repeat 0%R 1261) 1 1 = Some s
    /\ forall v, In v (vbo_data s) -> (0 <= h v <= 1)%R.
Proof.
  assert (Hmax : (1 * ((1 + 1) * 2) <= INT_MAX)%Z) by (unfold INT_MAX; lia).
  pose proof (create_eq 1 (repeat 0%R 1261) 1 1 ltac:(lia) ltac:(lia) Hmax
                zero_table_covers_35) as Hrun.
  eexists. split; [exact Hrun|].
  intros v Hin.
  refine (proj2 (create_height_attribute 1 (repeat 0%R 1261) 1 1 _
                   ltac:(lia) ltac:(lia) Hrun _ v Hin)).
  cbn [vbo_data]. rewrite map_position_y. exact zero_phase_not_flat.
Defined.

(** ** The sizes [create] accepts *)

Lemma for_loop_skip {S : Type} (body : Z -> S -> option S) :
  (forall j acc, body j acc = Some acc) ->
  forall (fuel : nat) (i : Z) (s : S), for_loop fuel i body s = Some s.
Proof.
  intros Hbody. induction fuel as [|fuel IH]; intros i s; simpl; [reflexivity|].
  rewrite Hbody. simpl. apply IH.
Qed.

(** Without a strip or without a column no vertex is produced. *)
Lemma create_vertices_none (A : R) (coeffs : list R) (N M : Z) :
  (N <= 0 \/ M < 0)%Z -> create_vertices A coeffs N M = Some [].
Proof.
  intros [HN | HM]; unfold create_vertices, for_lt.
  - replace (Z.to_nat N) with O by lia. reflexivity.
  - apply for_loop_skip. intros i acc. unfold for_le.
    replace (Z.to_nat (M + 1)) with O by lia. reflexivity.
Qed.

Lemma create_empty_undefined (A : R) (coeffs : list R) (N M : Z) :
  (N <= 0 \/ M < 0)%Z -> create A coeffs N M = None.
Proof.
  intros Hdeg. unfold create.
  destruct (int_add M 1) as [m1|]; [|reflexivity]. cbn [bind].
  destruct (int_mul m1 2) as [m2|]; [|reflexivity]. cbn [bind].
  rewrite create_vertices_none by assumption. reflexivity.
Qed.

(** X12.  [create] returns exactly for [N >= 1] strips and [M >= 0] on a
    phase table that covers the reads of order 35 and with a number of
    vertices [N * (M + 1) * 2] inside the [int] range; for every other pair
    of sizes (no strip, a negative size, too many vertices) or on a shorter
    table the run is undefined. *)
Theorem create_defined_exactly (A : R) (coeffs : list R) (N M : Z) :
  create A coeffs N M <> None <->
  (1 <= N)%Z /\ (0 <= M)%Z /\ covers coeffs 35
  /\ (N * ((M + 1) * 2) <= INT_MAX)%Z.
Proof.
  destruct (Z_le_gt_dec N 0) as [HN | HN].
  - rewrite create_empty_undefined by (left; assumption).
    split; [intros H; contradiction | intros (H & _); lia].
  - destruct (Z_lt_le_dec M 0) as [HM | HM].
    + rewrite create_empty_undefined by (right; assumption).
      split; [intros H; contradiction | intros (_ & H & _); lia].
    + rewrite create_defined by lia.
      split; [intros [Hc Hr]; repeat split; (lia || assumption)
             | intros (_ & _ & Hc & Hr); split; assumption].
Qed.

(** ** The mesh of the program *)

(** X13.  Whatever [rand] returns, after [onInitialization] the call
    [Terrain()] is defined: it builds 200 strips of 402 vertices, 80400
    vertices in all, and [Draw] issues the 200 calls [(i * 402, 402)], whose
    ranges enumerate the indices of the buffer once each. *)
Theorem Terrain_mesh (RAND_MAX : Z) (rand : nat -> Z) :
  exists s,
    Terrain (fst (onInitialization RAND_MAX rand))
            (snd (onInitialization RAND_MAX rand)) = Some s
    /\ nStrips s = 200%Z /\ nVtxPerStrip s = 402%Z
    /\ Z.of_nat (length (vbo_data s)) = 80400%Z
    /\ Draw s = map (fun i => (Z.of_nat i * 402, 402)%Z) (seq 0 200)
    /\ flat_map strip_range (Draw s) = map Z.of_nat (seq 0 (length (vbo_data s))).
Proof.
  assert (Hcov : covers (snd (onInitialization RAND_MAX rand)) 35).
  { right. rewrite onInitialization_length. unfold INT_MAX. lia. }
  eexists. split.
  - unfold Terrain, tessellationLevel. apply create_eq; [lia | lia | int_range | exact Hcov].
  - cbn [nStrips nVtxPerStrip vbo_data].
    split; [reflexivity|]. split; [reflexivity|].
    assert (Hn : length (map (rescale
                   (Rlist_min (raw_heights (fst (onInitialization RAND_MAX rand))
                                 (snd (onInitialization RAND_MAX rand)) 200 200))
                   (Rlist_max (raw_heights (fst (onInitialization RAND_MAX rand))
                                 (snd (onInitialization RAND_MAX rand)) 200 200)))
                 (map (fun uv => vertex_spec (fst (onInitialization RAND_MAX rand))
                                   (snd (onInitialization RAND_MAX rand)) (fst uv) (snd uv))
                      (grid_points 200 200)))
              = (Z.to_nat 200 * Z.to_nat ((200 + 1) * 2))%nat).
    { rewrite !length_map, length_grid_points. lia. }
    split; [rewrite Hn; lia|].
    split.
    + rewrite Draw_in_range; cbn [nStrips nVtxPerStrip]; [reflexivity | lia | lia | int_range].
    + rewrite Draw_in_range; cbn [nStrips nVtxPerStrip]; [| lia | lia | int_range].
      rewrite strips_partition by lia. rewrite Hn. reflexivity.
Qed.

(** ** The phases of the program *)

(** X14.  If [rand] returns values of [0 .. RAND_MAX] (and [RAND_MAX > 0]),
    [onInitialization] sets the amplitude to [0.5] and fills a table of
    [1000000] phases that all lie between [0] and [500]. *)
Theorem onInitialization_phases (RAND_MAX : Z) (rand : nat -> Z) :
  (0 < RAND_MAX)%Z -> (forall i, (0 <= rand i <= RAND_MAX)%Z) ->
  fst (onInitialization RAND_MAX rand) = 0.5%R
  /\ Z.of_nat (length (snd (onInitialization RAND_MAX rand))) = 1000000%Z
  /\ forall p, In p (snd (onInitialization RAND_MAX rand)) -> (0 <= p <= 500)%R.
Proof.
  intros Hmax Hrand. split; [reflexivity|]. split; [apply onInitialization_length|].
  intros p Hin. unfold onInitialization, snd in Hin.
  apply in_map_iff in Hin. destruct Hin as (i & <- & _).
  assert (HM : (0 < IZR RAND_MAX)%R) by (apply IZR_lt; assumption).
  assert (H0 : (0 <= IZR (rand i))%R) by (apply IZR_le; apply Hrand).
  assert (H1 : (IZR (rand i) <= IZR RAND_MAX)%R) by (apply IZR_le; apply Hrand).
  assert (Hq : (0 <= IZR (rand i) / IZR RAND_MAX <= 1)%R).
  { split.
    - apply Rmult_le_pos; [assumption | apply Rlt_le, Rinv_0_lt_compat; assumption].
    - apply (Rmult_le_reg_r (IZR RAND_MAX)); [assumption|].
      unfold Rdiv. rewrite Rmult_assoc, Rinv_l by lra. lra. }
  lra.
Qed.

Lemma onInitialization_phases_witness :
  ((0 < 32767)%Z /\ (forall i : nat, (0 <= (fun _ => 12345) i <= 32767)%Z))
  /\ forall p, In p (snd (onInitialization 32767 (fun _ => 12345%Z))) ->
       (0 <= p <= 500)%R.
Proof.
  assert (Hmax : (0 < 32767)%Z) by lia.
  assert (Hrand : forall i : nat, (0 <= (fun _ => 12345) i <= 32767)%Z)
    by (intros i; simpl; lia).
  split; [split; assumption|].
  exact (proj2 (proj2 (onInitialization_phases 32767 (fun _ => 12345%Z) Hmax Hrand))).
Defined.

(** ** The checkerboard image *)

(** A counting loop keeps an invariant that each round keeps. *)
Lemma for_loop_invariant {S : Type} (P : Z -> S -> Prop)
    (body : Z -> S -> option S) :
  forall (fuel : nat) (i : Z) (s : S),
    P i s ->
    (forall j s0, (i <= j < i + Z.of_nat fuel)%Z -> P j s0 ->
       exists s1, body j s0 = Some s1 /\ P (j + 1)%Z s1) ->
    exists s', for_loop fuel i body s = Some s' /\ P (i + Z.of_nat fuel)%Z s'.
Proof.
  induction fuel as [|fuel IH]; intros i s HP Hstep; simpl.
  - exists s. split; [reflexivity|]. replace (i + 0)%Z with i by lia. assumption.
  - destruct (Hstep i s ltac:(lia) HP) as (s1 & Hs1 & HP1).
    rewrite Hs1. simpl.
    destruct (IH (i + 1)%Z s1 HP1) as (s' & Hs' & HP').
    + intros j s0 Hj. apply Hstep. lia.
    + exists s'. split; [assumption|].
      replace (i + Z.pos (Pos.of_succ_nat fuel))%Z with (i + 1 + Z.of_nat fuel)%Z by lia.
      assumption.
Qed.

Lemma length_list_set {X : Type} (l : list X) :
  forall (i : nat) (v : X), length (list_set l i v) = length l.
Proof.
  induction l as [|a l IH]; intros [|i] v; simpl; try reflexivity.
  rewrite IH. reflexivity.
Qed.

Lemma nth_error_list_set_eq {X : Type} (l : list X) :
  forall (i : nat) (v : X),
    (i < length l)%nat -> nth_error (list_set l i v) i = Some v.
Proof.
  induction l as [|a l IH]; intros [|i] v Hi; simpl in *; try lia; try reflexivity.
  apply IH. lia.
Qed.

Lemma nth_error_list_set_neq {X : Type} (l : list X) :
  forall (i j : nat) (v : X),
    i <> j -> nth_error (list_set l i v) j = nth_error l j.
Proof.
  induction l as [|a l IH]; intros [|i] [|j] v Hij; simpl; try reflexivity; try lia.
  apply IH. lia.
Qed.

(** Two pixels with the same index are the same pixel. *)
Lemma pixel_index_injective (width x y x' y' : Z) :
  (0 <= x < width)%Z -> (0 <= x' < width)%Z ->
  (y * width + x = y' * width + x')%Z -> x = x' /\ y = y'.
Proof.
  intros Hx Hx' Heq.
  assert (Hy : y = y').
  { destruct (Z_lt_le_dec y y') as [Hlt | Hge]; [nia|].
    destruct (Z_lt_le_dec y' y) as [Hlt' | Hge']; [nia | lia]. }
  subst y'. lia.
Qed.

Lemma checker_color_parity (x y : Z) :
  checker_color x y = if Z.even (x + y) then blue else yellow.
Proof.
  unfold checker_color.
  change 1%Z with (Z.ones 1). rewrite !Z.land_ones by lia.
  change (2 ^ 1)%Z with 2%Z. rewrite !Zmod_even, Z.even_add.
  destruct (Z.even x), (Z.even y); reflexivity.
Qed.

Lemma yellow_not_blue : yellow <> blue.
Proof. unfold yellow, blue. intros Heq. inversion Heq. lra. Qed.

(** The image for non-negative sizes. *)
Lemma CheckerBoardTexture_eq (vec4_default : vec4) (width height : Z) :
  (0 <= width)%Z -> (0 <= height)%Z -> (width * height <= INT_MAX)%Z ->
  exists image,
    CheckerBoardTexture vec4_default width height = Some image
    /\ length image = Z.to_nat (width * height)
    /\ forall x y, (0 <= x < width)%Z -> (0 <= y < height)%Z ->
         nth_error image (Z.to_nat (y * width + x)) = Some (checker_color x y).
Proof.
  intros Hw Hh Hmax. unfold CheckerBoardTexture, int_mul.
  rewrite int_checked_in by (unfold INT_MIN; nia). cbn [bind].
  destruct (Z.ltb_spec (width * height) 0) as [Hneg | _]; [nia|].
  set (size := Z.to_nat (width * height)).
  pose (Pout := fun (x : Z) (img : list vec4) =>
    length img = size
    /\ forall x' y', (0 <= x' < x)%Z -> (0 <= y' < height)%Z ->
         nth_error img (Z.to_nat (y' * width + x')) = Some (checker_color x' y')).
  destruct (for_loop_invariant Pout
              (fun x image =>
                 for_lt height (fun y image =>
                   a <- int_checked (y * width) ;;
                   k <- int_add a x ;;
                   if ((k <? 0) || (Z.of_nat (length image) <=? k))%Z then None
                   else Some (list_set image (Z.to_nat k) (checker_color x y))) image)
              (Z.to_nat width) 0%Z (repeat vec4_default size))
    as (image & Hrun & Hlen & Hpix).
  - split; [apply repeat_length | intros; lia].
  - intros x img Hx [Hlen Hdone].
    pose (Pin := fun (y : Z) (im : list vec4) =>
      length im = size
      /\ (forall x' y', (0 <= x' < x)%Z -> (0 <= y' < height)%Z ->
            nth_error im (Z.to_nat (y' * width + x')) = Some (checker_color x' y'))
      /\ (forall y', (0 <= y' < y)%Z ->
            nth_error im (Z.to_nat (y' * width + x)) = Some (checker_color x y'))).
    destruct (for_loop_invariant Pin
                (fun y image =>
                   a <- int_checked (y * width) ;;
                   k <- int_add a x ;;
                   if ((k <? 0) || (Z.of_nat (length image) <=? k))%Z then None
                   else Some (list_set image (Z.to_nat k) (checker_color x y)))
                (Z.to_nat height) 0%Z img)
      as (img' & Hrun' & Hlen' & Hdone' & Hcol).
    + split; [assumption|]. split; [assumption | intros; lia].
    + intros y im Hy (Hl & Hd & Hc).
      assert (Hk : (0 <= y * width + x < width * height)%Z) by nia.
      rewrite int_checked_in by (unfold INT_MIN; nia). cbn [bind].
      unfold int_add. rewrite int_checked_in by (unfold INT_MIN; nia). cbn [bind].
      destruct (Z.ltb_spec (y * width + x) 0) as [Hlt | _]; [lia|].
      destruct (Z.leb_spec (Z.of_nat (length im)) (y * width + x)) as [Hle | _];
        [rewrite Hl in Hle; unfold size in Hle; lia|].
      cbn [orb]. eexists. split; [reflexivity|].
      split; [rewrite length_list_set; assumption|]. split.
      * intros x' y' Hx' Hy'.
        rewrite nth_error_list_set_neq; [apply Hd; assumption|].
        intros Heq. apply Z2Nat.inj in Heq; [|nia|nia].
        destruct (pixel_index_injective width x y x' y') as [Hxx _];
          [lia | lia | assumption | lia].
      * intros y' Hy'. destruct (Z.eq_dec y' y) as [-> | Hne].
        -- apply nth_error_list_set_eq. rewrite Hl. unfold size. lia.
        -- rewrite nth_error_list_set_neq; [apply Hc; lia|].
           intros Heq. apply Z2Nat.inj in Heq; [|nia|nia].
           destruct (pixel_index_injective width x y x y') as [_ Hyy];
             [lia | lia | assumption | lia].
    + exists img'. split; [exact Hrun'|]. split; [assumption|].
      intros x' y' Hx' Hy'.
      destruct (Z.eq_dec x' x) as [-> | Hne].
      * apply Hcol. lia.
      * apply Hdone'; lia.
  - exists image. split; [exact Hrun|]. split; [assumption|].
    intros x y Hx Hy. apply Hpix; lia.
Qed.

(** X15.  For sizes [width, height >= 0] with [width * height] an [int],
    [CheckerBoardTexture] writes every pixel inside the image and exactly
    once over: the image has [width * height] pixels, the pixel [(x, y)], at
    index [y * width + x], is blue when [x + y] is even and yellow when it is
    odd, so that neighbours along a row or a column always differ. *)
Theorem CheckerBoardTexture_pixels (vec4_default : vec4) (width height : Z) :
  (0 <= width)%Z -> (0 <= height)%Z -> (width * height <= INT_MAX)%Z ->
  exists image,
    CheckerBoardTexture vec4_default width height = Some image
    /\ length image = Z.to_nat (width * height)
    /\ (forall x y, (0 <= x < width)%Z -> (0 <= y < height)%Z ->
          nth_error image (Z.to_nat (y * width + x))
          = Some (if Z.even (x + y) then blue else yellow))
    /\ (forall x y, (0 <= x)%Z -> (x + 1 < width)%Z -> (0 <= y < height)%Z ->
          nth_error image (Z.to_nat (y * width + x))
          <> nth_error image (Z.to_nat (y * width + (x + 1))))
    /\ (forall x y, (0 <= x < width)%Z -> (0 <= y)%Z -> (y + 1 < height)%Z ->
          nth_error image (Z.to_nat (y * width + x))
          <> nth_error image (Z.to_nat ((y + 1) * width + x))).
Proof.
  intros Hw Hh Hmax.
  destruct (CheckerBoardTexture_eq vec4_default width height Hw Hh Hmax)
    as (image & Hrun & Hlen & Hpix).
  assert (Hpar : forall x y, (0 <= x < width)%Z -> (0 <= y < height)%Z ->
            nth_error image (Z.to_nat (y * width + x))
            = Some (if Z.even (x + y) then blue else yellow)).
  { intros x y Hx Hy. rewrite Hpix by assumption. f_equal. apply checker_color_parity. }
  assert (Hflip : forall a, (if Z.even a then blue else yellow)
                            <> (if Z.even (a + 1) then blue else yellow)).
  { intros a. rewrite Z.even_add. destruct (Z.even a); simpl; intros Heq.
    - apply yellow_not_blue. symmetry. exact Heq.
    - apply yellow_not_blue. exact Heq. }
  exists image. split; [exact Hrun|]. split; [exact Hlen|]. split; [exact Hpar|].
  split.
  - intros x y Hx Hx1 Hy. rewrite !Hpar by lia.
    intros Heq. inversion Heq as [Hc]. apply (Hflip (x + y)%Z).
    replace (x + y + 1)%Z with (x + 1 + y)%Z by lia. exact Hc.
  - intros x y Hx Hy Hy1. rewrite !Hpar by lia.
    intros Heq. inversion Heq as [Hc]. apply (Hflip (x + y)%Z).
    replace (x + y + 1)%Z with (x + (y + 1))%Z by lia. exact Hc.
Qed.

Lemma CheckerBoardTexture_pixels_witness :
  ((0 <= 20)%Z /\ (20 * 20 <= INT_MAX)%Z)
  /\ exists image,
       CheckerBoardTexture (V4.mk 0 0 0 0) 20 20 = Some image
       /\ length image = 400%nat
       /\ nth_error image 21 = Some blue
       /\ nth_error image 22 = Some yellow.
Proof.
  assert (H20 : (0 <= 20)%Z) by lia.
  assert (Hmax : (20 * 20 <= INT_MAX)%Z) by (unfold INT_MAX; lia).
  split; [split; assumption|].
  destruct (CheckerBoardTexture_pixels (V4.mk 0 0 0 0) 20 20 H20 H20 Hmax)
    as (image & Hrun & Hlen & Hpix & _).
  exists image. split; [exact Hrun|]. split; [exact Hlen|]. split.
  - exact (Hpix 1%Z 1%Z ltac:(lia) ltac:(lia)).
  - exact (Hpix 2%Z 1%Z ltac:(lia) ltac:(lia)).
Defined.

Lemma CheckerBoardTexture_no_column (vec4_default : vec4) (width height : Z) :
  (width <= 0)%Z -> (0 <= width * height <= INT_MAX)%Z ->
  CheckerBoardTexture vec4_default width height
  = Some (repeat vec4_default (Z.to_nat (width * height))).
Proof.
  intros Hw Hsize. unfold CheckerBoardTexture, int_mul.
  rewrite int_checked_in by int_range. cbn [bind].
  destruct (Z.ltb_spec (width * height) 0) as [Hneg | _]; [lia|].
  unfold for_lt. replace (Z.to_nat width) with O by lia. reflexivity.
Qed.

(** X16.  [CheckerBoardTexture] is defined exactly when [width * height] is
    a non-negative [int]: a negative product (one negative size) or one
    outside the [int] range gives no image, and two negative sizes give an
    image of [width * height] pixels that is never written. *)
Theorem CheckerBoardTexture_defined_exactly (vec4_default : vec4)
    (width height : Z) :
  (CheckerBoardTexture vec4_default width height <> None <->
   (0 <= width * height <= INT_MAX)%Z)
  /\ ((width < 0)%Z -> (height < 0)%Z -> (width * height <= INT_MAX)%Z ->
      CheckerBoardTexture vec4_default width height
      = Some (repeat vec4_default (Z.to_nat (width * height)))).
Proof.
  split.
  - split.
    + intros Hdef. unfold CheckerBoardTexture, int_mul in Hdef.
      destruct (int_checked (width * height)) as [size|] eqn:Hsize;
        [|contradiction].
      apply int_checked_Some in Hsize. destruct Hsize as [-> Hrange].
      cbn [bind] in Hdef.
      destruct (Z.ltb_spec (width * height) 0) as [Hneg | Hpos]; [contradiction|].
      lia.
    + intros Hsize.
      destruct (Z_le_gt_dec width 0) as [Hw | Hw].
      * rewrite CheckerBoardTexture_no_column by assumption. discriminate.
      * destruct (CheckerBoardTexture_eq vec4_default width height)
          as (image & Hrun & _); [lia | nia | lia |].
        rewrite Hrun. discriminate.
  - intros Hw Hh Hmax. apply CheckerBoardTexture_no_column; [lia | nia].
Qed.

Lemma CheckerBoardTexture_defined_exactly_witness :
  ((-2 < 0)%Z /\ (-3 < 0)%Z /\ (-2 * -3 <= INT_MAX)%Z)
  /\ CheckerBoardTexture (V4.mk 0 0 0 0) (-2) (-3)
     = Some (repeat (V4.mk 0 0 0 0) 6).
Proof.
  assert (H2 : (-2 < 0)%Z) by lia.
  assert (H3 : (-3 < 0)%Z) by lia.
  assert (Hmax : (-2 * -3 <= INT_MAX)%Z) by (unfold INT_MAX; lia).
  split; [repeat split; assumption|].
  exact (proj2 (CheckerBoardTexture_defined_exactly (V4.mk 0 0 0 0) (-2) (-3))
           H2 H3 Hmax).
Defined.

(** ** The fragment colour and the normal *)

Lemma for_loop_ext {S : Type} (body body' : Z -> S -> option S) :
  (forall j acc, body j acc = body' j acc) ->
  forall (fuel : nat) (i : Z) (s : S),
    for_loop fuel i body s = for_loop fuel i body' s.
Proof.
  intros Hext. induction fuel as [|fuel IH]; intros i s; simpl; [reflexivity|].
  rewrite Hext. destruct (body' i s) as [s'|]; simpl; [apply IH | reflexivity].
Qed.

Lemma vec3_neg_involutive (a : vec3) : vec3_neg (vec3_neg a) = a.
Proof. destruct a as [ax ay az]. unfold vec3_neg. simpl. f_equal; ring. Qed.

Lemma V3_dot_neg (a b : vec3) : V3.dot (vec3_neg a) b = (- V3.dot a b)%R.
Proof. unfold V3.dot, vec3_neg. simpl. ring. Qed.

Lemma V3_length_scale_any (a : vec3) (k : R) :
  V3.length (V3.scale a k) = (V3.length a * Rabs k)%R.
Proof.
  unfold V3.length, V3.scale, V3.dot. simpl.
  replace (V3.x a * k * (V3.x a * k) + V3.y a * k * (V3.y a * k)
           + V3.z a * k * (V3.z a * k))%R
    with ((V3.x a * V3.x a + V3.y a * V3.y a + V3.z a * V3.z a) * Rsqr k)%R
    by (unfold Rsqr; ring).
  rewrite sqrt_mult_alt by nra.
  rewrite sqrt_Rsqr_abs. reflexivity.
Qed.

(** Normalising a multiple of a vector gives the normalised vector or its
    opposite. *)
Lemma V3_normalize_scale (a : vec3) (k : R) :
  k <> 0%R ->
  V3.normalize (V3.scale a k)
  = if Rlt_dec k 0 then vec3_neg (V3.normalize a) else V3.normalize a.
Proof.
  intros Hk. unfold V3.normalize. rewrite V3_length_scale_any.
  unfold Rdiv. rewrite Rinv_mult.
  destruct (Rlt_dec k 0) as [Hneg | Hpos].
  - rewrite (Rabs_left k) by assumption.
    unfold V3.scale, vec3_neg. simpl.
    assert (Hinv : (k * / - k = -1)%R) by (field; lra).
    f_equal.
    + replace (V3.x a * k * (1 * (/ V3.length a * / - k)))%R
        with (V3.x a * (1 * / V3.length a) * (k * / - k))%R by ring.
      rewrite Hinv. ring.
    + replace (V3.y a * k * (1 * (/ V3.length a * / - k)))%R
        with (V3.y a * (1 * / V3.length a) * (k * / - k))%R by ring.
      rewrite Hinv. ring.
    + replace (V3.z a * k * (1 * (/ V3.length a * / - k)))%R
        with (V3.z a * (1 * / V3.length a) * (k * / - k))%R by ring.
      rewrite Hinv. ring.
  - rewrite (Rabs_right k) by lra.
    unfold V3.scale. simpl.
    assert (Hinv : (k * / k = 1)%R) by (field; lra).
    f_equal.
    + replace (V3.x a * k * (1 * (/ V3.length a * / k)))%R
        with (V3.x a * (1 * / V3.length a) * (k * / k))%R by ring.
      rewrite Hinv. ring.
    + replace (V3.y a * k * (1 * (/ V3.length a * / k)))%R
        with (V3.y a * (1 * / V3.length a) * (k * / k))%R by ring.
      rewrite Hinv. ring.
    + replace (V3.z a * k * (1 * (/ V3.length a * / k)))%R
        with (V3.z a * (1 * / V3.length a) * (k * / k))%R by ring.
      rewrite Hinv. ring.
Qed.

(** The term of one light does not see the sign of the normal. *)
Lemma fragment_light_neg (pow : R -> R -> R) (material : Material)
    (c N V wLight_i Le_i : vec3) :
  fragment_light pow material c (vec3_neg N) V wLight_i Le_i
  = fragment_light pow material c N V wLight_i Le_i.
Proof.
  unfold fragment_light. rewrite !V3_dot_neg, !Rabs_Ropp. reflexivity.
Qed.

(** The normal the shader ends up with, for a normal and for its opposite. *)
Lemma flipped_normal_choice (n V : vec3) :
  let pick := fun m => if Rlt_dec (V3.dot m V) 0 then vec3_neg m else m in
  pick (vec3_neg n) = pick n \/ pick (vec3_neg n) = vec3_neg (pick n).
Proof.
  simpl. rewrite V3_dot_neg.
  destruct (Rlt_dec (V3.dot n V) 0) as [Hlt | Hge];
    destruct (Rlt_dec (- V3.dot n V) 0) as [Hlt' | Hge'].
  - lra.
  - left. reflexivity.
  - left. apply vec3_neg_involutive.
  - right. reflexivity.
Qed.

(** X17.  The fragment colour depends only on the line the normal spans:
    multiplying a non-zero interpolated normal [wNormal] by any [k <> 0],
    negative or not, leaves [fragmentColor] as it is (the normal is
    normalised, and its sign is absorbed by the absolute values of the two
    cosines). *)
Theorem fragment_main_normal_line (pow : R -> R -> R) (material : Material)
    (lights : list Light) (nLights : Z) (wNormal wView : vec3)
    (wLight : list vec3) (wH k : R) :
  V3.length wNormal <> 0%R -> k <> 0%R ->
  fragment_main pow material lights nLights (V3.scale wNormal k) wView wLight wH
  = fragment_main pow material lights nLights wNormal wView wLight wH.
Proof.
  intros _ Hk. unfold fragment_main.
  rewrite V3_normalize_scale by assumption.
  set (n0 := V3.normalize wNormal). set (V := V3.normalize wView).
  set (c := V3.add (V3.scale (V3.sub (kd material) (V3.mk 1 0 0)) (wH * 0.7))
                   (kd material)).
  assert (Hsame : forall N N', (N' = N \/ N' = vec3_neg N) ->
            for_lt nLights (fun i radiance =>
              light <- nth_error lights (Z.to_nat i) ;;
              wLight_i <- nth_error wLight (Z.to_nat i) ;;
              Some (V3.add radiance
                      (fragment_light pow material c N' V wLight_i (Le light))))
              (V3.mk 0 0 0)
            = for_lt nLights (fun i radiance =>
                light <- nth_error lights (Z.to_nat i) ;;
                wLight_i <- nth_error wLight (Z.to_nat i) ;;
                Some (V3.add radiance
                        (fragment_light pow material c N V wLight_i (Le light))))
                (V3.mk 0 0 0)).
  { intros N N' [-> | ->]; [reflexivity|].
    unfold for_lt. apply for_loop_ext. intros i acc.
    destruct (nth_error lights (Z.to_nat i)) as [light|]; [|reflexivity].
    destruct (nth_error wLight (Z.to_nat i)) as [w|]; [|reflexivity].
    cbn [bind]. rewrite fragment_light_neg. reflexivity. }
  destruct (Rlt_dec k 0) as [Hneg | Hpos]; [|reflexivity].
  rewrite (Hsame (if Rlt_dec (V3.dot n0 V) 0 then vec3_neg n0 else n0)
                 (if Rlt_dec (V3.dot (vec3_neg n0) V) 0
                  then vec3_neg (vec3_neg n0) else vec3_neg n0)).
  - reflexivity.
  - apply (flipped_normal_choice n0 V).
Qed.

Lemma fragment_main_normal_line_witness :
  (V3.length (V3.mk 0 1 0) <> 0%R /\ (-1 <> 0)%R)
  /\ fragment_main (fun a b => a) (mkMaterial (V3.mk 0.5 0.25 0.1) (V3.mk 0.2 0.2 0.2)
                                      (V3.mk 0 0 0) 1)
       [mkLight (V3.mk 0.1 0.1 1) (V3.mk 1.2 1 0.7) (V4.mk 5 5 4 0)] 1
       (V3.scale (V3.mk 0 1 0) (-1)) (V3.mk 0 0 1) [V3.mk 5 5 4] 0.5
     = fragment_main (fun a b => a) (mkMaterial (V3.mk 0.5 0.25 0.1) (V3.mk 0.2 0.2 0.2)
                                        (V3.mk 0 0 0) 1)
         [mkLight (V3.mk 0.1 0.1 1) (V3.mk 1.2 1 0.7) (V4.mk 5 5 4 0)] 1
         (V3.mk 0 1 0) (V3.mk 0 0 1) [V3.mk 5 5 4] 0.5.
Proof.
  assert (Hk : (-1 <> 0)%R) by lra.
  assert (Hn : V3.length (V3.mk 0 1 0) <> 0%R).
  { pose proof (V3_length_up_ge_1 0 0). lra. }
  split; [split; assumption|].
  apply (fragment_main_normal_line (fun a b => a)); assumption.
Defined.

(** ** Animation over an idle period *)






(** ** The weight function *)

Lemma E_spec_symmetric (A : R) (i j : Z) : E_spec A i j = E_spec A j i.
Proof.
  unfold E_spec. rewrite andb_comm.
  replace (IZR j * IZR j + IZR i * IZR i)%R with (IZR i * IZR i + IZR j * IZR j)%R by ring.
  reflexivity.
Qed.

(** X19.  For a non-negative amplitude and non-negative [int] arguments
    whose sum is an [int], the weight [E(A, i, j)] lies between [0] and [A]
    and is symmetric in [i] and [j]; and [E] returns [0] whenever its two
    arguments add up to [0], also away from [(0, 0)]. *)
Theorem E_weight_bounds (A : R) (i j : Z) :
  (0 <= A)%R -> (0 <= i)%Z -> (0 <= j)%Z -> (i + j <= INT_MAX)%Z ->
  (0 <= E A i j <= A)%R
  /\ E A i j = E A j i
  /\ (forall k, E A k (- k) = 0%R).
Proof.
  intros HA Hi Hj Hij. split; [|split].
  - rewrite E_is_E_spec by assumption.
    split; [apply E_spec_nonneg | apply E_spec_le_A]; assumption.
  - rewrite !E_is_E_spec by lia. apply E_spec_symmetric.
  - intros k. unfold E. rewrite Z.add_opp_diag_r. reflexivity.
Qed.

Lemma E_weight_bounds_witness :
  ((0 <= 2)%R /\ (0 <= 3)%Z /\ (0 <= 4)%Z /\ (3 + 4 <= INT_MAX)%Z)
  /\ (0 <= E 2 3 4 <= 2)%R.
Proof.
  assert (HA : (0 <= 2)%R) by lra.
  assert (H3 : (0 <= 3)%Z) by lia.
  assert (H4 : (0 <= 4)%Z) by lia.
  assert (Hs : (3 + 4 <= INT_MAX)%Z) by (unfold INT_MAX; lia).
  split; [repeat split; assumption|].
  exact (proj1 (E_weight_bounds 2 3 4 HA H3 H4 Hs)).
Defined.

(** ** The flat field *)

Lemma sum_from_zero (g : Z -> R) :
  forall (k : nat) (i : Z),
    (forall j, (i <= j < i + Z.of_nat k)%Z -> g j = 0%R) -> sum_from k i g = 0%R.
Proof.
  induction k as [|k IH]; intros i Hg; simpl; [reflexivity|].
  rewrite Hg by lia. rewrite (IH (i + 1)%Z); [ring|].
  intros; apply Hg; lia.
Qed.

Lemma E_spec_zero_amplitude (i j : Z) : E_spec 0 i j = 0%R.
Proof.
  unfold E_spec. destruct ((i =? 0) && (j =? 0))%Z; [reflexivity|].
  unfold Rdiv. ring.
Qed.

Lemma zero_amplitude_sums (coeffs : list R) (x' y' : R) (n : Z) :
  height_spec 0 coeffs x' y' n = 0%R
  /\ dheight_dx_spec 0 coeffs x' y' n = 0%R
  /\ dheight_dy_spec 0 coeffs x' y' n = 0%R.
Proof.
  unfold height_spec, dheight_dx_spec, dheight_dy_spec, sum_upto.
  split; [|split]; apply sum_from_zero; intros i _; apply sum_from_zero; intros j _;
    rewrite E_spec_zero_amplitude; ring.
Qed.

Lemma all_zero_min_max (l : list R) :
  (forall r, In r l -> r = 0%R) -> Rlist_min l = 0%R /\ Rlist_max l = 0%R.
Proof.
  intros Hall. destruct l as [|a t]; [split; reflexivity|].
  split; apply Hall; simpl.
  - apply (fold_left_Rmin_In t a).
  - apply (fold_left_Rmax_In t a).
Qed.

(** X20.  With amplitude [A = 0] the field is flat: every query that
    returns gives height [0] and normal [(0, 1, 0)], all raw heights of a
    mesh are equal, and the rescaling of [create] divides by
    [max - min = 0]. *)
Theorem zero_amplitude_flat (coeffs : list R) :
  (forall x y n height norm,
     getTerrainInfo 0 coeffs x y n = Some (height, norm) ->
     height = 0%R /\ norm = V3.mk (- 0) 1 (- 0))
  /\ (forall N M,
        (Rlist_max (raw_heights 0 coeffs N M)
         - Rlist_min (raw_heights 0 coeffs N M) = 0)%R).
Proof.
  split.
  - intros x y n height norm Hrun.
    apply getTerrainInfo_Some in Hrun. destruct Hrun as (_ & -> & ->).
    destruct (zero_amplitude_sums coeffs (x * PI - PI) (y * PI - PI) n)
      as (-> & -> & ->).
    split; reflexivity.
  - intros N M.
    destruct (all_zero_min_max (raw_heights 0 coeffs N M)) as [-> ->]; [|ring].
    intros r Hin. unfold raw_heights in Hin. apply in_map_iff in Hin.
    destruct Hin as (uv & <- & _). unfold raw_height.
    apply (zero_amplitude_sums coeffs).
Qed.

Lemma zero_amplitude_flat_witness :
  exists height norm,
    getTerrainInfo 0 (repeat 0%R 1261) 0.5 0.5 35 = Some (height, norm)
    /\ height = 0%R.
Proof.
  pose proof (getTerrainInfo_eq 0 (repeat 0%R 1261) 0.5 0.5 35
                zero_table_covers_35) as Hrun.
  eexists. eexists. split; [exact Hrun|].
  exact (proj1 (proj1 (zero_amplitude_flat (repeat 0%R 1261)) _ _ _ _ _ Hrun)).
Defined.
